(** * Mortgage cash flows with defaults (Standard Default Methodology)

    A shallow embedding of [calculate_mortgage_cash_flows_with_defaults]
    from [mortgage_cashflow_calculator.py], and the properties of its
    scheduled-amortization curve and of its month-by-month recursion.

    Numbers.  The program computes with binary64 floats.  Here a finite
    float is read as the rational it denotes and [+ - * / **] are exact:
    rounding, overflow and the sign of zero are left out.  So [1 + c] is
    never rounded to 1, a rate divided by 100 and multiplied by 100 is the
    rate again, no product overflows to [inf], and [**] never raises
    OverflowError.  What is kept is the difference between the two kinds
    of float the program mixes:
    - a Python [float]: dividing by zero, or raising zero to a negative
      power, raises [ZeroDivisionError];
    - a numpy [float64] (an element read from [sch_am] and everything
      computed from one): dividing by zero only warns and yields [inf] or
      [nan], which then flow through the rest of the month.

    The amounts of the records are described by the expressions the
    program evaluates, field by field, rather than by what algebra makes
    of them, and a bound that would leave no room for rounding is stated
    with that room.  The curve is compared with the annuity formula in
    exact arithmetic. *)

From Stdlib Require Import ZArith QArith Qpower Qabs List Bool Lia Lqa String.
Import ListNotations.

Open Scope Z_scope.

(** ** Exceptions and the result of a call *)

Inductive exn : Set :=
| ZeroDivisionError
| ValueError
| KeyError
| IndexError.

Inductive res (A : Type) : Type :=
| Ok (a : A)
| Raise (e : exn).

Arguments Ok {A} a.
Arguments Raise {A} e.

Definition bind {A B : Type} (m : res A) (k : A -> res B) : res B :=
  match m with
  | Ok a => k a
  | Raise e => Raise e
  end.

Notation "x <- m ;; k" := (bind m (fun x => k))
  (at level 61, m at next level, right associativity).

(** [for x in xs: s = f(s, x)], stopping at the first exception. *)
Fixpoint foldM {S X : Type} (f : S -> X -> res S) (xs : list X) (s : S)
  : res S :=
  match xs with
  | [] => Ok s
  | x :: xs' => s' <- f s x ;; foldM f xs' s'
  end.

(** [range(lo, hi)] *)
Definition py_range (lo hi : Z) : list Z :=
  map (fun k => lo + Z.of_nat k) (seq 0 (Z.to_nat (hi - lo))).

(** ** Floats *)

Inductive flt : Set :=
| Fin (q : Q)
| PInf
| NInf
| NaN.

Definition Qpos (q : Q) : bool := negb (Qle_bool q 0).
Definition Qneg (q : Q) : bool := negb (Qle_bool 0 q).
Definition Qzero (q : Q) : bool := Qeq_bool q 0.

Definition fneg (a : flt) : flt :=
  match a with
  | Fin q => Fin (- q)
  | PInf => NInf
  | NInf => PInf
  | NaN => NaN
  end.

Definition fadd (a b : flt) : flt :=
  match a, b with
  | Fin x, Fin y => Fin (x + y)
  | NaN, _ | _, NaN => NaN
  | PInf, NInf | NInf, PInf => NaN
  | PInf, _ | _, PInf => PInf
  | NInf, _ | _, NInf => NInf
  end.

Definition fsub (a b : flt) : flt :=
  match a, b with
  | Fin x, Fin y => Fin (x - y)
  | _, _ => fadd a (fneg b)
  end.

(** the infinity of sign [s] ([true] is [+]) *)
Definition inf (s : bool) : flt := if s then PInf else NInf.

Definition fmul (a b : flt) : flt :=
  match a, b with
  | Fin x, Fin y => Fin (x * y)
  | NaN, _ | _, NaN => NaN
  | PInf, Fin q | Fin q, PInf =>
      if Qzero q then NaN else inf (Qpos q)
  | NInf, Fin q | Fin q, NInf =>
      if Qzero q then NaN else inf (Qneg q)
  | PInf, PInf | NInf, NInf => PInf
  | PInf, NInf | NInf, PInf => NInf
  end.

(** numpy [float64] division: it never raises *)
Definition fdiv (a b : flt) : flt :=
  match a, b with
  | Fin x, Fin y =>
      if Qzero y then
        if Qzero x then NaN else inf (Qpos x)
      else Fin (x / y)
  | NaN, _ | _, NaN => NaN
  | Fin _, (PInf | NInf) => Fin 0
  | (PInf | NInf), (PInf | NInf) => NaN
  | PInf, Fin y => inf (negb (Qneg y))
  | NInf, Fin y => inf (Qneg y)
  end.

(** [a > b]; every comparison with [nan] is false *)
Definition fgt (a b : flt) : bool :=
  match a, b with
  | Fin x, Fin y => negb (Qle_bool x y)
  | NaN, _ | _, NaN => false
  | PInf, PInf => false
  | PInf, _ => true
  | _, PInf => false
  | NInf, _ => false
  | Fin _, NInf => true
  end.

Definition flt_lt (a b : flt) : bool := fgt b a.

(** Python's [min(a, b)] and [max(a, b)]: the first argument is kept
    unless the second one is strictly smaller (larger). *)
Definition py_min (a b : flt) : flt := if flt_lt b a then b else a.
Definition py_max (a b : flt) : flt := if fgt b a then b else a.

(** Same value: equal as rationals, or the same special value. *)
Definition feq (a b : flt) : Prop :=
  match a, b with
  | Fin x, Fin y => x == y
  | PInf, PInf | NInf, NInf | NaN, NaN => True
  | _, _ => False
  end.

Infix "=f=" := feq (at level 70, no associativity).

(** ** Python float operations that raise *)

(** [a / b] on Python floats *)
Definition py_div (a b : Q) : res Q :=
  if Qeq_bool b 0 then Raise ZeroDivisionError else Ok (a / b)%Q.

(** [b ** e] for a Python float [b] and an int [e] *)
Definition py_pow (b : Q) (e : Z) : res Q :=
  if Qeq_bool b 0 && (e <? 0) then Raise ZeroDivisionError
  else Ok (b ^ e)%Q.

(** ** numpy arrays of float64 *)

(** [np.zeros(n)] *)
Definition np_zeros (n : Z) : res (list flt) :=
  if n <? 0 then Raise ValueError
  else Ok (repeat (Fin 0) (Z.to_nat n)).

Definition len {A : Type} (a : list A) : Z := Z.of_nat (List.length a).

(** An index as numpy resolves it: negative indices count from the end. *)
Definition np_pos {A : Type} (a : list A) (i : Z) : res nat :=
  if (0 <=? i) && (i <? len a) then Ok (Z.to_nat i)
  else if (- len a <=? i) && (i <? 0) then Ok (Z.to_nat (len a + i))
  else Raise IndexError.

(** [a[i]] *)
Definition np_get (a : list flt) (i : Z) : res flt :=
  k <- np_pos a i ;; Ok (nth k a (Fin 0)).

Fixpoint set_nth {A : Type} (a : list A) (k : nat) (v : A) : list A :=
  match a, k with
  | [], _ => []
  | _ :: a', O => v :: a'
  | x :: a', S k' => x :: set_nth a' k' v
  end.

(** [a[i] = v] *)
Definition np_set (a : list flt) (i : Z) (v : flt) : res (list flt) :=
  k <- np_pos a i ;; Ok (set_nth a k v).

(** ** Pool parameters: the arguments of the function *)

Record params : Set := {
  initial_balance : Q;
  wac : Q;                       (* annual %, a float *)
  wam : Z;                       (* months, an int *)
  prepay_rate_smm : Q;           (* monthly %, a float *)
  default_rate_mdr : Q;          (* monthly %, a float *)
  months_to_liquidation : Z;     (* an int *)
  loss_severity : Q;             (* %, a float *)
  pi_advanced : bool
}.

(** ** Scheduled amortization array *)

(** The value stored at index [i]: lines 58-64. *)
Definition sch_value (c_monthly : Q) (wam i : Z) : res Q :=
  let remaining_months := wam - i in
  if remaining_months >? 0 then
    a <- py_pow (1 + c_monthly) (- remaining_months) ;;
    b <- py_pow (1 + c_monthly) (- wam) ;;
    bal <- py_div (1 - a) (1 - b) ;;
    d <- py_pow (1 + c_monthly) (- wam) ;;
    py_div (bal * c_monthly) (1 - d)
  else Ok 0%Q.

Definition build_sch_am (wac : Q) (wam : Z) : res (list flt) :=
  let months := wam in
  sch_am <- np_zeros (months + 1) ;;
  let c_monthly := (wac / 1200)%Q in
  foldM (fun sch_am i =>
           v <- sch_value c_monthly wam i ;;
           np_set sch_am i (Fin v))
        (py_range 0 (months + 1)) sch_am.

(** ** The month-by-month recursion *)

(** An entry of [default_queue]: the dict with keys ['amount'] and
    ['recovery_month']. *)
Record default : Set := {
  amount : flt;
  recovery_month : Z
}.

(** A monthly record: the dict appended to [results], one field per key. *)
Record row : Set := {
  Month : Z;
  Performing_Balance : flt;
  New_Defaults : flt;
  In_Foreclosure : flt;
  Amort_Factor : flt;
  Expected_Amortization : flt;
  Voluntary_Prepayments : flt;
  Amort_From_Defaults : flt;
  Actual_Amort : flt;
  Expected_Interest : flt;
  Interest_Lost : flt;
  Actual_Interest : flt;
  Principal_Recovery : flt;
  Principal_Loss : flt;
  In_Recovery_Month : option flt;
  Default_Rate : flt;
  Prepay_Rate : flt
}.

(** The variables that live across iterations.  [perf_is_np] records
    whether [perf_bal_prev] has become a numpy scalar: it starts as the
    Python number [initial_balance] and turns into a [float64] as soon as
    an [amort_factor] read from [sch_am] enters it. *)
Record loop_state : Set := {
  perf_bal_prev : flt;
  perf_is_np : bool;
  fcl_prev : flt;
  default_queue : list default;
  results : list row
}.

Definition init_state (p : params) : loop_state := {|
  perf_bal_prev := Fin (initial_balance p);
  perf_is_np := false;
  fcl_prev := Fin 0;
  default_queue := [];
  results := []
|}.

(** Lines 70-74: the default rate is 0 for the last months. *)
Definition month_mdr (p : params) (month : Z) : Q :=
  let months := wam p in
  if month >? months - months_to_liquidation p then 0%Q
  else (default_rate_mdr p / 100)%Q.

(** Lines 91-96: the body of the scan of [default_queue], for one entry. *)
Definition adb_add (p : params) (sch_am : list flt) (month : Z)
    (adb : flt) (d : default) : res flt :=
  if recovery_month d =? month then
    let months_elapsed :=
      month - (recovery_month d - months_to_liquidation p) in
    if pi_advanced p && (month >? 0) && (month - 1 <? len sch_am) then
      a <- np_get sch_am (month - 1) ;;
      b <- np_get sch_am (month - months_to_liquidation p) ;;
      Ok (fadd adb (fmul (amount d) (fdiv a b)))
    else Ok (fadd adb (amount d))
  else Ok adb.

(** Lines 89-96 *)
Definition scan_queue (p : params) (sch_am : list flt) (month : Z)
    (queue : list default) : res flt :=
  foldM (adb_add p sch_am month) queue (Fin 0).

(** Lines 102-105; the boolean tells whether the factor is a numpy scalar
    (read from the array) or the Python int [0]. *)
Definition month_amort_factor (sch_am : list flt) (month : Z)
  : res (flt * bool) :=
  if (month >? 0) && (month <? len sch_am) then
    prev <- np_get sch_am (month - 1) ;;
    if fgt prev (Fin 0) then
      cur <- np_get sch_am month ;;
      prev' <- np_get sch_am (month - 1) ;;
      Ok (fsub (Fin 1) (fdiv cur prev'), true)
    else Ok (Fin 0, false)
  else Ok (Fin 0, false).

(** Line 142: [perf_bal / initial_balance]. *)
Definition pool_factor_of (is_np : bool) (perf_bal : flt) (initial_balance : Q)
  : res flt :=
  if is_np then Ok (fdiv perf_bal (Fin initial_balance))
  else if Qzero initial_balance then Raise ZeroDivisionError
       else Ok (fdiv perf_bal (Fin initial_balance)).

(** Lines 70-167: one iteration of the loop over [month]. *)
Definition month_step (p : params) (sch_am : list flt)
    (st : loop_state) (month : Z) : res loop_state :=
  let net_mortgage_rate := (wac p / 1200)%Q in
  let mdr := month_mdr p month in
  let smm := (prepay_rate_smm p / 100)%Q in
  let new_def := fmul (perf_bal_prev st) (Fin mdr) in
  let default_queue :=
    if fgt new_def (Fin 0) then
      default_queue st ++
        [{| amount := new_def;
            recovery_month := month + months_to_liquidation p |}]
    else default_queue st in
  adb <- scan_queue p sch_am month default_queue ;;
  let fcl := fsub (fadd new_def (fcl_prev st)) adb in
  af <- month_amort_factor sch_am month ;;
  let amort_factor := fst af in
  let exp_am :=
    fmul (fsub (fadd (perf_bal_prev st) (fcl_prev st)) adb) amort_factor in
  let vol_prepay := fmul (fmul (perf_bal_prev st) amort_factor) (Fin smm) in
  let am_def :=
    if pi_advanced p
    then fmul (fsub (fadd new_def (fcl_prev st)) adb) amort_factor
    else Fin 0 in
  let act_am := fmul (fsub (perf_bal_prev st) new_def) amort_factor in
  let fcl := fsub fcl am_def in
  let exp_int :=
    fmul (fadd (perf_bal_prev st) (fcl_prev st)) (Fin net_mortgage_rate) in
  let lost_int := fmul (fadd new_def (fcl_prev st)) (Fin net_mortgage_rate) in
  let act_int := fsub exp_int lost_int in
  let prin_loss :=
    if fgt adb (Fin 0)
    then py_min (fmul adb (Fin (loss_severity p / 100))) adb
    else Fin 0 in
  let prin_recov := py_max (fsub adb prin_loss) (Fin 0) in
  let perf_bal :=
    fsub (fsub (fsub (perf_bal_prev st) new_def) vol_prepay) act_am in
  let is_np := perf_is_np st || snd af in
  pool_factor <- pool_factor_of is_np perf_bal (initial_balance p) ;;
  Ok {| perf_bal_prev := perf_bal;
        perf_is_np := is_np;
        fcl_prev := fcl;
        default_queue := default_queue;
        results :=
          results st ++
            [{| Month := month;
                Performing_Balance := perf_bal;
                New_Defaults := new_def;
                In_Foreclosure := fcl;
                Amort_Factor := pool_factor;
                Expected_Amortization := exp_am;
                Voluntary_Prepayments := vol_prepay;
                Amort_From_Defaults := am_def;
                Actual_Amort := act_am;
                Expected_Interest := exp_int;
                Interest_Lost := lost_int;
                Actual_Interest := act_int;
                Principal_Recovery := prin_recov;
                Principal_Loss := prin_loss;
                In_Recovery_Month :=
                  if fgt adb (Fin 0) then Some adb else None;
                Default_Rate := Fin mdr;
                Prepay_Rate := Fin smm |}] |}.

(** Lines 44-167: the curve, then the loop; the state after month [wam]. *)
Definition engine (p : params) : res loop_state :=
  let months := wam p in
  sch_am <- build_sch_am (wac p) (wam p) ;;
  foldM (month_step p sch_am) (py_range 1 (months + 1)) (init_state p).

(** The state after the first [n] months, on a given curve. *)
Definition engine_upto (p : params) (sch_am : list flt) (n : Z)
  : res loop_state :=
  foldM (month_step p sch_am) (py_range 1 (n + 1)) (init_state p).

(** Lines 170-177.  pandas builds the column ['In Recovery Month'] from
    the values of line 160: a column of [None] only keeps them; as soon as
    one record holds a number the column is a float column and the [None]
    of the other records is stored as [nan].  [has_recovery] tells which of
    the two it is. *)
Definition has_recovery (results : list row) : bool :=
  existsb
    (fun r => match In_Recovery_Month r with Some _ => true | None => false end)
    results.

(** A record of the returned frame.  The two rate columns are scaled to
    percent. *)
Definition to_display (float_column : bool) (r : row) : row := {|
  Month := Month r;
  Performing_Balance := Performing_Balance r;
  New_Defaults := New_Defaults r;
  In_Foreclosure := In_Foreclosure r;
  Amort_Factor := Amort_Factor r;
  Expected_Amortization := Expected_Amortization r;
  Voluntary_Prepayments := Voluntary_Prepayments r;
  Amort_From_Defaults := Amort_From_Defaults r;
  Actual_Amort := Actual_Amort r;
  Expected_Interest := Expected_Interest r;
  Interest_Lost := Interest_Lost r;
  Actual_Interest := Actual_Interest r;
  Principal_Recovery := Principal_Recovery r;
  Principal_Loss := Principal_Loss r;
  In_Recovery_Month :=
    match In_Recovery_Month r with
    | Some x => Some x
    | None => if float_column then Some NaN else None
    end;
  Default_Rate := fmul (Default_Rate r) (Fin 100);
  Prepay_Rate := fmul (Prepay_Rate r) (Fin 100)
|}.

Definition display_rows (results : list row) : list row :=
  map (to_display (has_recovery results)) results.

(** A frame built from an empty list has no columns, so selecting
    ['Default Rate'] raises [KeyError]. *)
Definition display_df (results : list row) : res (list row) :=
  match results with
  | [] => Raise KeyError
  | _ => Ok (display_rows results)
  end.

Definition calculate_mortgage_cash_flows_with_defaults (p : params)
  : res (list row) :=
  st <- engine p ;;
  display_df (results st).

(** The record as the dict it is: keys in insertion order. *)
Inductive value : Set :=
| VInt (z : Z)
| VFloat (x : flt)
| VNone.

Open Scope string_scope.

Definition items (r : row) : list (string * value) :=
  [ ("Month", VInt (Month r));
    ("Performing Balance", VFloat (Performing_Balance r));
    ("New Defaults", VFloat (New_Defaults r));
    ("In Foreclosure", VFloat (In_Foreclosure r));
    ("Amort Factor", VFloat (Amort_Factor r));
    ("Expected Amortization", VFloat (Expected_Amortization r));
    ("Voluntary Prepayments", VFloat (Voluntary_Prepayments r));
    ("Amort From Defaults", VFloat (Amort_From_Defaults r));
    ("Actual Amort", VFloat (Actual_Amort r));
    ("Expected Interest", VFloat (Expected_Interest r));
    ("Interest Lost", VFloat (Interest_Lost r));
    ("Actual Interest", VFloat (Actual_Interest r));
    ("Principal Recovery", VFloat (Principal_Recovery r));
    ("Principal Loss", VFloat (Principal_Loss r));
    ("In Recovery Month",
       match In_Recovery_Month r with Some x => VFloat x | None => VNone end);
    ("Default Rate", VFloat (Default_Rate r));
    ("Prepay Rate", VFloat (Prepay_Rate r)) ].

Close Scope string_scope.

(** ** The curve in closed form *)

(** [(1 + c) ** (-k)] *)
Definition disc (c : Q) (k : Z) : Q := ((1 + c) ^ (- k))%Q.

(** The annuity remaining-balance fraction after [i] of [wam] payments. *)
Definition annuity_fraction (c : Q) (wam i : Z) : Q :=
  ((1 - disc c (wam - i)) / (1 - disc c wam))%Q.

(** The value the builder stores at index [i], when nothing raises. *)
Definition sch_q (c : Q) (wam i : Z) : Q :=
  if wam - i >? 0
  then (annuity_fraction c wam i * c / (1 - disc c wam))%Q
  else 0%Q.

Definition curve (c : Q) (wam : Z) : list flt :=
  map (fun i => Fin (sch_q c wam i)) (py_range 0 (wam + 1)).

(** The amortization factor of month [m] on that curve: line 103. *)
Definition af_q (c : Q) (wam m : Z) : Q :=
  (1 - sch_q c wam m / sch_q c wam (m - 1))%Q.

(** Line 139 on finite values: the next performing balance. *)
Definition perf_step (mdr smm af P : Q) : Q :=
  (P - P * mdr - P * af * smm - (P - P * mdr) * af)%Q.

(** ** What holds of the loop variables after month [m] *)

Record wf (p : params) (m : Z) (st : loop_state) : Prop := {
  wf_rows : len (results st) = m;
  wf_np : 1 <= m -> perf_is_np st = true;
  wf_perf : exists P, perf_bal_prev st = Fin P;
  wf_queue :
    forall d, In d (default_queue st) ->
      exists o, 1 <= o <= m /\ o <= wam p - months_to_liquidation p /\
                recovery_month d = o + months_to_liquidation p
}.

(** What one iteration does to the loop variables, with the record [r] it
    appends, the amortized default balance [adb] and the amortization
    factor [af] of the month. *)
Record month_facts (p : params) (sch_am : list flt) (s : loop_state)
    (m : Z) (s' : loop_state) (r : row) (adb af : flt) : Prop := {
  mf_results : results s' = results s ++ [r];
  mf_queue :
    default_queue s' =
      if fgt (New_Defaults r) (Fin 0)
      then default_queue s ++
             [{| amount := New_Defaults r;
                 recovery_month := m + months_to_liquidation p |}]
      else default_queue s;
  mf_scan : scan_queue p sch_am m (default_queue s') = Ok adb;
  mf_af : exists b, month_amort_factor sch_am m = Ok (af, b);
  mf_month : Month r = m;
  mf_new_def : New_Defaults r = fmul (perf_bal_prev s) (Fin (month_mdr p m));
  mf_vol :
    Voluntary_Prepayments r =
      fmul (fmul (perf_bal_prev s) af) (Fin (prepay_rate_smm p / 100));
  mf_act : Actual_Amort r = fmul (fsub (perf_bal_prev s) (New_Defaults r)) af;
  mf_exp :
    Expected_Amortization r =
      fmul (fsub (fadd (perf_bal_prev s) (fcl_prev s)) adb) af;
  mf_amdef :
    Amort_From_Defaults r =
      if pi_advanced p
      then fmul (fsub (fadd (New_Defaults r) (fcl_prev s)) adb) af
      else Fin 0;
  mf_fcl :
    In_Foreclosure r =
      fsub (fsub (fadd (New_Defaults r) (fcl_prev s)) adb)
           (Amort_From_Defaults r);
  mf_loss :
    Principal_Loss r =
      if fgt adb (Fin 0)
      then py_min (fmul adb (Fin (loss_severity p / 100))) adb
      else Fin 0;
  mf_recov :
    Principal_Recovery r = py_max (fsub adb (Principal_Loss r)) (Fin 0);
  mf_inrec :
    In_Recovery_Month r = if fgt adb (Fin 0) then Some adb else None;
  mf_perf :
    Performing_Balance r =
      fsub (fsub (fsub (perf_bal_prev s) (New_Defaults r))
                 (Voluntary_Prepayments r))
           (Actual_Amort r);
  mf_pool :
    pool_factor_of (perf_is_np s') (Performing_Balance r) (initial_balance p)
      = Ok (Amort_Factor r);
  mf_perf' : perf_bal_prev s' = Performing_Balance r;
  mf_fcl' : fcl_prev s' = In_Foreclosure r
}.

(** ** Reading the returned records *)

(** The performing balance at month [m]: the initial balance at month 0,
    the record's field afterwards. *)
Definition performing (p : params) (rs : list row) (m : Z) : option flt :=
  if m =? 0 then Some (Fin (initial_balance p))
  else option_map Performing_Balance (nth_error rs (Z.to_nat (m - 1))).

(** The record of month [m] is there and carries that month number; its
    performing balance, new defaults, voluntary prepayments and actual
    amortization are numbers, and the performing balance is the one of the
    month before less the other three, subtracted in the order of line
    139. *)
Definition rolls_forward (p : params) (rs : list row) (m : Z) : Prop :=
  exists r prev nd vp aa,
    nth_error rs (Z.to_nat (m - 1)) = Some r /\
    Month r = m /\
    performing p rs (m - 1) = Some (Fin prev) /\
    New_Defaults r = Fin nd /\
    Voluntary_Prepayments r = Fin vp /\
    Actual_Amort r = Fin aa /\
    Performing_Balance r = Fin (prev - nd - vp - aa).



(** ** The life of a default entry *)

(** Month [o] appends the entry [d] to the queue: lines 79-86. *)
Definition booked_at (p : params) (sch_am : list flt) (o : Z) (d : default)
  : Prop :=
  exists s0,
    engine_upto p sch_am (o - 1) = Ok s0 /\
    fgt (fmul (perf_bal_prev s0) (Fin (month_mdr p o))) (Fin 0) = true /\
    d = {| amount := fmul (perf_bal_prev s0) (Fin (month_mdr p o));
           recovery_month := o + months_to_liquidation p |}.

(** [d] is in the queue that month [m] scans. *)
Definition scanned_in (p : params) (sch_am : list flt) (m : Z) (d : default)
  : Prop :=
  exists s, engine_upto p sch_am m = Ok s /\ In d (default_queue s).

(** [d] adds to the amortized default balance of month [m]: it is scanned
    and passes the test of line 91. *)
Definition matures_in (p : params) (sch_am : list flt) (m : Z) (d : default)
  : Prop :=
  scanned_in p sch_am m d /\ recovery_month d = m.

(** ** The record as a dict *)

Fixpoint assoc (k : string) (l : list (string * value)) : option value :=
  match l with
  | [] => None
  | (k', v) :: l' => if String.eqb k k' then Some v else assoc k l'
  end.

(** The value [v] of a field is the number [x]. *)
Definition value_is (v : value) (x : flt) : Prop :=
  match v with
  | VInt z => Fin (inject_Z z) =f= x
  | VFloat y => y =f= x
  | VNone => False
  end.

(** The [amort_factor] of month [m]: the local variable of lines 102-105. *)
Definition scheduled_factor (p : params) (m : Z) : option flt :=
  match build_sch_am (wac p) (wam p) with
  | Ok sch_am =>
      match month_amort_factor sch_am m with
      | Ok af => Some (fst af)
      | Raise _ => None
      end
  | Raise _ => None
  end.

(** ** Sample pools *)

(** A three-month pool at 100% a month, everything else as in the
    script's defaults scaled down. *)
Definition pool3 : params := {|
  initial_balance := 100; wac := 1200; wam := 3;
  prepay_rate_smm := 1; default_rate_mdr := 1;
  months_to_liquidation := 1; loss_severity := 20; pi_advanced := true |}.

(** One month at 100% a month: the shortest curve. *)
Definition pool1 : params := {|
  initial_balance := 100; wac := 1200; wam := 1;
  prepay_rate_smm := 1; default_rate_mdr := 0;
  months_to_liquidation := 0; loss_severity := 20; pi_advanced := true |}.

(** The script's own pool (Cash Flow A) with the coupon set to zero. *)
Definition pool_zero_coupon : params := {|
  initial_balance := 100000000; wac := 0; wam := 360;
  prepay_rate_smm := 1; default_rate_mdr := 1;
  months_to_liquidation := 12; loss_severity := 20; pi_advanced := true |}.

(** The script's own pool (Cash Flow A), lines 181-190. *)
Definition pool_cash_flow_a : params := {|
  initial_balance := 100000000; wac := 8; wam := 360;
  prepay_rate_smm := 1; default_rate_mdr := 1;
  months_to_liquidation := 12; loss_severity := 20; pi_advanced := true |}.

(** A pool that breaks every range of the data model but the coupon and
    the term: negative balance, liquidation lag beyond the term, rates
    above 100 and below 0. *)
Definition pool_out_of_range : params := {|
  initial_balance := -100; wac := 1200; wam := 3;
  prepay_rate_smm := 150; default_rate_mdr := -5;
  months_to_liquidation := 7; loss_severity := 300; pi_advanced := true |}.

(** The same with a term of zero months. *)
Definition pool_no_term : params := {|
  initial_balance := 100; wac := 1200; wam := 0;
  prepay_rate_smm := 1; default_rate_mdr := 1;
  months_to_liquidation := 1; loss_severity := 20; pi_advanced := true |}.

(** Two months, defaults on, and no liquidation lag. *)
Definition pool_no_lag : params := {|
  initial_balance := 100; wac := 1200; wam := 2;
  prepay_rate_smm := 1; default_rate_mdr := 1;
  months_to_liquidation := 0; loss_severity := 20; pi_advanced := true |}.

(** Three months with a liquidation lag as long as the term. *)
Definition pool_long_lag : params := {|
  initial_balance := 100; wac := 1200; wam := 3;
  prepay_rate_smm := 1; default_rate_mdr := 1;
  months_to_liquidation := 3; loss_severity := 20; pi_advanced := true |}.

(** Three months without prepayments and without defaults. *)
Definition pool_quiet : params := {|
  initial_balance := 100; wac := 1200; wam := 3;
  prepay_rate_smm := 0; default_rate_mdr := 0;
  months_to_liquidation := 1; loss_severity := 20; pi_advanced := true |}.


(** Two months, with amounts that keep every field apart. *)
Definition pool_apart : params := {|
  initial_balance := 1000; wac := 1200; wam := 2;
  prepay_rate_smm := 2; default_rate_mdr := 3;
  months_to_liquidation := 1; loss_severity := 20; pi_advanced := true |}.

(** The interest and rate fields of the record one iteration appends:
    lines 124-130 and 161-162. *)
Record month_interest (p : params) (s : loop_state) (m : Z) (r : row)
  : Prop := {
  mi_exp_int :
    Expected_Interest r =
      fmul (fadd (perf_bal_prev s) (fcl_prev s)) (Fin (wac p / 1200));
  mi_lost_int :
    Interest_Lost r =
      fmul (fadd (New_Defaults r) (fcl_prev s)) (Fin (wac p / 1200));
  mi_act_int :
    Actual_Interest r = fsub (Expected_Interest r) (Interest_Lost r);
  mi_default_rate : Default_Rate r = Fin (month_mdr p m);
  mi_prepay_rate : Prepay_Rate r = Fin (prepay_rate_smm p / 100)
}.

(** ** Runs without [inf] and [nan] *)

Definition finite (x : flt) : Prop := exists q, x = Fin q.

(** The divisor of line 94 can only be the 0 that ends the curve when
    P&I is advanced and there is no liquidation lag. *)
Definition lag_or_no_advance (p : params) : Prop :=
  months_to_liquidation p <> 0 \/ pi_advanced p = false.

(** The foreclosure balance at month [m]: 0 at month 0, the record's field
    afterwards. *)
Definition foreclosure (rs : list row) (m : Z) : option flt :=
  if m =? 0 then Some (Fin 0)
  else option_map In_Foreclosure (nth_error rs (Z.to_nat (m - 1))).

(** The monthly rates as fractions, and the factor of month [m]. *)
Definition coupon (p : params) : Q := (wac p / 1200)%Q.
Definition smm_of (p : params) : Q := (prepay_rate_smm p / 100)%Q.
Definition af_of (p : params) (m : Z) : Q := af_q (coupon p) (wam p) m.

(** Lines 112-115 on finite values. *)
Definition am_def_q (p : params) (m : Z) (P F A : Q) : Q :=
  if pi_advanced p
  then ((P * month_mdr p m + F - A) * af_of p m)%Q
  else 0%Q.

(** The record of month [m] when the month starts from the finite
    performing balance [P] and foreclosure balance [F] and the scan of the
    queue returns the finite amount [A]. *)
Record fin_facts (p : params) (m : Z) (P F A : Q) (r : row) : Prop := {
  ff_month : Month r = m;
  ff_new_def : New_Defaults r = Fin (P * month_mdr p m);
  ff_exp : Expected_Amortization r = Fin ((P + F - A) * af_of p m);
  ff_vol : Voluntary_Prepayments r = Fin (P * af_of p m * smm_of p);
  ff_amdef : Amort_From_Defaults r = Fin (am_def_q p m P F A);
  ff_act : Actual_Amort r = Fin ((P - P * month_mdr p m) * af_of p m);
  ff_fcl :
    In_Foreclosure r
      = Fin (P * month_mdr p m + F - A - am_def_q p m P F A);
  ff_exp_int : Expected_Interest r = Fin ((P + F) * coupon p);
  ff_lost_int : Interest_Lost r = Fin ((P * month_mdr p m + F) * coupon p);
  ff_act_int :
    Actual_Interest r
      = Fin ((P + F) * coupon p - (P * month_mdr p m + F) * coupon p);
  ff_loss :
    Principal_Loss r =
      if fgt (Fin A) (Fin 0)
      then py_min (Fin (A * (loss_severity p / 100))) (Fin A)
      else Fin 0;
  ff_recov :
    Principal_Recovery r = py_max (fsub (Fin A) (Principal_Loss r)) (Fin 0);
  ff_inrec :
    In_Recovery_Month r = if fgt (Fin A) (Fin 0) then Some (Fin A) else None;
  ff_perf :
    Performing_Balance r
      = Fin (perf_step (month_mdr p m) (smm_of p) (af_of p m) P);
  ff_pool :
    Amort_Factor r
      = fdiv (Performing_Balance r) (Fin (initial_balance p))
}.

(** The loop variables hold finite values. *)
Record fin_state (s : loop_state) (P F : Q) : Prop := {
  fs_perf : perf_bal_prev s = Fin P;
  fs_fcl : fcl_prev s = Fin F;
  fs_queue : forall d, In d (default_queue s) -> finite (amount d)
}.

(** The records of months [1..n] are finite and each follows from the
    balances the month before left. *)
Definition fin_chain (p : params) (rs : list row) (n : Z) : Prop :=
  forall m, 1 <= m <= n ->
    exists r P F A,
      nth_error rs (Z.to_nat (m - 1)) = Some r /\
      performing p rs (m - 1) = Some (Fin P) /\
      foreclosure rs (m - 1) = Some (Fin F) /\
      fin_facts p m P F A r.

(** A pool with every range of the data model respected. *)
Definition pool_two : params := {|
  initial_balance := 1000; wac := 1200; wam := 2;
  prepay_rate_smm := 2; default_rate_mdr := 3;
  months_to_liquidation := 1; loss_severity := 20; pi_advanced := true |}.

(** ** From a month's new defaults to a later month's recovery *)

(** The queue entries the records account for: one for each record with
    positive new defaults, in the order of the records. *)
Definition entries_of (p : params) (rs : list row) : list default :=
  flat_map
    (fun r =>
       if fgt (New_Defaults r) (Fin 0)
       then [{| amount := New_Defaults r;
                recovery_month := Month r + months_to_liquidation p |}]
       else [])
    rs.

(** The recovered amount of record [r] comes from the new defaults [nd]
    of record [r0].  When these were not positive nothing is recovered.
    Otherwise the amortized default balance of the month is [0 + nd]
    without P&I advance and [0 + nd * (a / b)] with it, where [a] is the
    curve the month before [r] and [b] the curve at the month of [r0];
    the record reports it when it is greater than 0 (line 160). *)
Definition recovery_of (p : params) (sch_am : list flt) (r0 r : row)
  : Prop :=
  exists nd,
    New_Defaults r0 = Fin nd /\
    if fgt (Fin nd) (Fin 0)
    then exists adb,
           In_Recovery_Month r
             = (if fgt (Fin adb) (Fin 0) then Some (Fin adb) else None) /\
           if pi_advanced p
           then exists a b,
                  np_get sch_am (Month r - 1) = Ok (Fin a) /\
                  np_get sch_am (Month r0) = Ok (Fin b) /\
                  (0 < a)%Q /\ (0 < b)%Q /\
                  adb = (0 + nd * (a / b))%Q
           else adb = (0 + nd)%Q
    else In_Recovery_Month r = None.

(** The record of month [k] against the loop: the state [s0] the month
    starts from, the queue the month scans (the entries of the records up
    to month [k]) and the amortized default balance [adb] the scan
    returns. *)
Definition month_trace (p : params) (sch_am : list flt) (rs : list row)
    (k : Z) : Prop :=
  exists r s0 adb,
    nth_error rs (Z.to_nat (k - 1)) = Some r /\
    Month r = k /\
    engine_upto p sch_am (k - 1) = Ok s0 /\
    New_Defaults r = fmul (perf_bal_prev s0) (Fin (month_mdr p k)) /\
    scan_queue p sch_am k (entries_of p (firstn (Z.to_nat k) rs)) = Ok adb /\
    In_Recovery_Month r = (if fgt adb (Fin 0) then Some adb else None).

(** What the entry [d] adds to [adb] in the month it matures, lines
    93-96: its amount, a positive number, as it is without P&I advance,
    and scaled by [sch_am[month - 1] / sch_am[month -
    months_to_liquidation]] with it.  The divisor is a value of the curve;
    the curve ends on 0. *)
Definition term_of (p : params) (sch_am : list flt) (d : default) (t : flt)
  : Prop :=
  exists x,
    amount d = Fin x /\ (0 < x)%Q /\
    if pi_advanced p
    then exists a b,
           np_get sch_am (recovery_month d - 1) = Ok (Fin a) /\
           np_get sch_am (recovery_month d - months_to_liquidation p)
             = Ok (Fin b) /\
           (0 < a)%Q /\ (0 <= b)%Q /\
           t = fmul (Fin x) (fdiv (Fin a) (Fin b))
    else t = Fin x.

(** Two months with a liquidation lag of -1 month. *)
Definition pool_negative_lag : params := {|
  initial_balance := 100; wac := 1200; wam := 2;
  prepay_rate_smm := 1; default_rate_mdr := 1;
  months_to_liquidation := -1; loss_severity := 20; pi_advanced := true |}.

(** A monthly coupon of -100%. *)
Definition pool_minus_coupon : params := {|
  initial_balance := 100; wac := -1200; wam := 2;
  prepay_rate_smm := 1; default_rate_mdr := 1;
  months_to_liquidation := 1; loss_severity := 20; pi_advanced := true |}.

(** A pool with nothing in it. *)
Definition pool_empty : params := {|
  initial_balance := 0; wac := 1200; wam := 2;
  prepay_rate_smm := 2; default_rate_mdr := 3;
  months_to_liquidation := 1; loss_severity := 20; pi_advanced := true |}.

(** ** Loops *)

Lemma py_range_nil (lo hi : Z) : hi <= lo -> py_range lo hi = [].
Proof.
  intros H. unfold py_range.
  replace (Z.to_nat (hi - lo)) with 0%nat by lia. reflexivity.
Qed.

Lemma py_range_cons (lo hi : Z) :
  lo < hi -> py_range lo hi = lo :: py_range (lo + 1) hi.
Proof.
  intros H. unfold py_range.
  replace (Z.to_nat (hi - lo)) with (S (Z.to_nat (hi - (lo + 1)))) by lia.
  cbn [seq map]. f_equal; [lia|].
  rewrite <- seq_shift, map_map.
  apply map_ext. intros k. lia.
Qed.

Lemma py_range_snoc (lo hi : Z) :
  lo <= hi -> py_range lo (hi + 1) = py_range lo hi ++ [hi].
Proof.
  intros H. unfold py_range.
  replace (Z.to_nat (hi + 1 - lo)) with (Z.to_nat (hi - lo) + 1)%nat by lia.
  rewrite seq_app, map_app. cbn [seq map]. do 2 f_equal. lia.
Qed.

Lemma py_range_length (lo hi : Z) :
  List.length (py_range lo hi) = Z.to_nat (hi - lo).
Proof. unfold py_range. now rewrite length_map, length_seq. Qed.

Lemma py_range_In (lo hi x : Z) : In x (py_range lo hi) <-> lo <= x < hi.
Proof.
  unfold py_range. rewrite in_map_iff. split.
  - intros (k & <- & Hk). apply in_seq in Hk. lia.
  - intros H. exists (Z.to_nat (x - lo)). split; [lia|].
    apply in_seq. lia.
Qed.

Lemma py_range_nth (lo hi : Z) (k : nat) (d : Z) :
  (k < Z.to_nat (hi - lo))%nat ->
  nth k (py_range lo hi) d = lo + Z.of_nat k.
Proof.
  intros H. unfold py_range.
  rewrite (nth_indep _ d (lo + Z.of_nat 0))
    by now rewrite length_map, length_seq.
  rewrite (map_nth (fun k => lo + Z.of_nat k)), seq_nth by assumption.
  reflexivity.
Qed.

Lemma foldM_app {S X : Type} (f : S -> X -> res S) (xs ys : list X) (s : S) :
  foldM f (xs ++ ys) s = (s' <- foldM f xs s ;; foldM f ys s').
Proof.
  revert s. induction xs as [|x xs IH]; intros s; cbn; [reflexivity|].
  destruct (f s x); cbn; auto.
Qed.

(** The rule for [for i in range(lo, hi)] with an invariant [P i s] that
    holds before iteration [i]: the loop returns, and [P hi] holds then. *)
Lemma for_range_inv {S : Type} (f : S -> Z -> res S) (P : Z -> S -> Prop)
    (lo hi : Z) (s0 : S) :
  lo <= hi ->
  P lo s0 ->
  (forall i s, lo <= i < hi -> P i s ->
               exists s', f s i = Ok s' /\ P (i + 1) s') ->
  exists s', foldM f (py_range lo hi) s0 = Ok s' /\ P hi s'.
Proof.
  intros Hle H0 Hstep.
  remember (Z.to_nat (hi - lo)) as n eqn:Hn.
  revert lo s0 Hle H0 Hstep Hn.
  induction n as [|n IH]; intros lo s0 Hle H0 Hstep Hn.
  - assert (lo = hi) by lia. subst lo.
    rewrite py_range_nil by lia. exists s0. now split.
  - rewrite py_range_cons by lia. cbn [foldM].
    destruct (Hstep lo s0 ltac:(lia) H0) as (s1 & E1 & P1).
    rewrite E1. cbn [bind].
    apply IH; [lia|assumption| |lia].
    intros i s Hi. apply Hstep. lia.
Qed.

(** ** Discount factors *)

Section Discount.

Variable c : Q.
Hypothesis c_pos : (0 < c)%Q.

Lemma one_plus_c_gt_1 : (1 < 1 + c)%Q.
Proof. lra. Qed.

Lemma one_plus_c_nonzero : Qeq_bool (1 + c) 0 = false.
Proof.
  destruct (Qeq_bool (1 + c) 0) eqn:E; [|reflexivity].
  apply Qeq_bool_eq in E. lra.
Qed.


Lemma disc_lt_1 (k : Z) : 0 < k -> (disc c k < 1)%Q.
Proof.
  intros Hk. unfold disc.
  change 1%Q with ((1 + c) ^ 0)%Q at 2.
  apply Qpower_lt_compat_l; [lia | apply one_plus_c_gt_1].
Qed.

Lemma disc_mono (k k' : Z) : k <= k' -> (disc c k' <= disc c k)%Q.
Proof.
  intros Hk. unfold disc.
  apply Qpower_le_compat_l; [lia | apply Qlt_le_weak, one_plus_c_gt_1].
Qed.


Lemma disc_le_1 (k : Z) : 0 <= k -> (disc c k <= 1)%Q.
Proof.
  intros Hk. unfold disc.
  change 1%Q with ((1 + c) ^ 0)%Q at 2.
  apply Qpower_le_compat_l; [lia | apply Qlt_le_weak, one_plus_c_gt_1].
Qed.

Lemma denom_pos (w : Z) : 0 < w -> (0 < 1 - disc c w)%Q.
Proof. intros Hw. pose proof (disc_lt_1 w Hw). lra. Qed.

Lemma denom_nonzero (w : Z) : 0 < w -> Qeq_bool (1 - disc c w) 0 = false.
Proof.
  intros Hw. destruct (Qeq_bool (1 - disc c w) 0) eqn:E; [|reflexivity].
  apply Qeq_bool_eq in E. pose proof (denom_pos w Hw). lra.
Qed.

(** Every index of the curve is computed without an exception. *)
Lemma sch_value_ok (w i : Z) :
  0 < w -> sch_value c w i = Ok (sch_q c w i).
Proof.
  intros Hw. unfold sch_value, sch_q, annuity_fraction.
  destruct (w - i >? 0); [|reflexivity].
  unfold py_pow. rewrite one_plus_c_nonzero. cbn [andb bind].
  unfold py_div. fold (disc c (w - i)). fold (disc c w).
  rewrite (denom_nonzero w Hw). reflexivity.
Qed.

End Discount.

(** ** Arrays *)

Lemma set_nth_middle {A : Type} (l1 l2 : list A) (x v : A) :
  set_nth (l1 ++ x :: l2) (List.length l1) v = l1 ++ v :: l2.
Proof. induction l1 as [|y l1 IH]; cbn; [reflexivity|now rewrite IH]. Qed.

Lemma np_pos_in_range {A : Type} (a : list A) (i : Z) :
  0 <= i < len a -> np_pos a i = Ok (Z.to_nat i).
Proof.
  intros H. unfold np_pos.
  replace (0 <=? i) with true by (symmetry; apply Z.leb_le; lia).
  replace (i <? len a) with true by (symmetry; apply Z.ltb_lt; lia).
  reflexivity.
Qed.

Lemma curve_len (c : Q) (w : Z) : 0 <= w + 1 -> len (curve c w) = w + 1.
Proof.
  intros H. unfold len, curve. rewrite length_map, py_range_length. lia.
Qed.

Lemma curve_get (c : Q) (w i : Z) :
  0 <= i <= w -> np_get (curve c w) i = Ok (Fin (sch_q c w i)).
Proof.
  intros H. unfold np_get.
  rewrite np_pos_in_range by (rewrite curve_len; lia).
  cbn [bind]. f_equal. unfold curve.
  rewrite (nth_indep _ (Fin 0) (Fin (sch_q c w 0))) by
    (rewrite length_map, py_range_length; lia).
  rewrite (map_nth (fun i => Fin (sch_q c w i))).
  rewrite py_range_nth by lia. do 2 f_equal. lia.
Qed.

(** With a positive coupon and a positive term the builder returns the
    curve in closed form. *)
Lemma build_sch_am_ok (wac : Q) (w : Z) :
  (0 < wac)%Q -> 0 < w ->
  build_sch_am wac w = Ok (curve (wac / 1200) w).
Proof.
  intros Hc Hw. unfold build_sch_am, np_zeros.
  replace (w + 1 <? 0) with false by (symmetry; apply Z.ltb_ge; lia).
  cbn [bind].
  assert (Hc' : (0 < wac / 1200)%Q).
  { apply Qlt_shift_div_l; [reflexivity|lra]. }
  set (c := (wac / 1200)%Q) in *.
  destruct (for_range_inv
    (fun sch_am i => v <- sch_value c w i ;; np_set sch_am i (Fin v))
    (fun i a => a = map (fun i => Fin (sch_q c w i)) (py_range 0 i)
                      ++ repeat (Fin 0) (Z.to_nat (w + 1 - i)))
    0 (w + 1) (repeat (Fin 0) (Z.to_nat (w + 1))))
    as (a & Ea & Pa).
  - lia.
  - rewrite py_range_nil by lia. cbn. do 2 f_equal. lia.
  - intros i a Hi ->.
    rewrite (sch_value_ok c Hc' w i Hw). cbn [bind].
    eexists. split; [|reflexivity].
    unfold np_set. rewrite np_pos_in_range.
    2:{ unfold len. rewrite length_app, length_map, py_range_length,
          repeat_length. lia. }
    cbn [bind]. f_equal.
    replace (Z.to_nat (w + 1 - i)) with (S (Z.to_nat (w + 1 - (i + 1)))) by lia.
    cbn [repeat].
    replace (Z.to_nat i)
      with (List.length (map (fun i => Fin (sch_q c w i)) (py_range 0 i)))
      by (rewrite length_map, py_range_length; lia).
    rewrite set_nth_middle, py_range_snoc by lia.
    rewrite map_app, <- app_assoc. reflexivity.
  - rewrite Ea, Pa. f_equal.
    replace (Z.to_nat (w + 1 - (w + 1))) with 0%nat by lia.
    cbn [repeat]. now rewrite app_nil_r.
Qed.

(** ** Shape of the curve *)

Section Curve.

Variables (c : Q) (w : Z).
Hypothesis c_pos : (0 < c)%Q.
Hypothesis w_pos : 0 < w.

Lemma sch_q_last : sch_q c w w = 0%Q.
Proof.
  unfold sch_q. now rewrite Z.sub_diag.
Qed.

Lemma annuity_fraction_first : (annuity_fraction c w 0 == 1)%Q.
Proof.
  unfold annuity_fraction. rewrite Z.sub_0_r.
  pose proof (denom_pos c c_pos w w_pos). field. lra.
Qed.

Lemma annuity_fraction_last : (annuity_fraction c w w == 0)%Q.
Proof.
  unfold annuity_fraction. rewrite Z.sub_diag.
  change (disc c 0) with 1%Q.
  pose proof (denom_pos c c_pos w w_pos). field. lra.
Qed.

(** What is stored is the annuity fraction times the level payment per
    unit of balance, [c / (1 - (1+c)^-w)]. *)
Lemma sch_q_scaled (i : Z) :
  0 <= i <= w ->
  (sch_q c w i == annuity_fraction c w i * (c / (1 - disc c w)))%Q.
Proof.
  intros Hi. pose proof (denom_pos c c_pos w w_pos) as HD.
  unfold sch_q. destruct (w - i >? 0) eqn:E.
  - field. lra.
  - assert (i = w).
    { rewrite Z.gtb_ltb in E. apply Z.ltb_ge in E. lia. }
    subst i. rewrite annuity_fraction_last. field. lra.
Qed.

Lemma sch_q_first : (sch_q c w 0 == c / (1 - disc c w))%Q.
Proof.
  rewrite sch_q_scaled by lia. rewrite annuity_fraction_first. ring.
Qed.

Lemma payment_factor_pos : (0 < c / (1 - disc c w))%Q.
Proof.
  apply Qlt_shift_div_l; [apply denom_pos; assumption | lra].
Qed.

Lemma annuity_fraction_pos (i : Z) :
  0 <= i < w -> (0 < annuity_fraction c w i)%Q.
Proof.
  intros Hi. unfold annuity_fraction.
  apply Qlt_shift_div_l; [apply denom_pos; assumption|].
  pose proof (denom_pos c c_pos (w - i) ltac:(lia)). lra.
Qed.

Lemma annuity_fraction_mono (i j : Z) :
  i <= j -> (annuity_fraction c w j <= annuity_fraction c w i)%Q.
Proof.
  intros Hij. unfold annuity_fraction.
  pose proof (denom_pos c c_pos w w_pos) as HD.
  pose proof (disc_mono c c_pos (w - j) (w - i) ltac:(lia)).
  apply Qmult_le_compat_r.
  - lra.
  - apply Qlt_le_weak, Qinv_lt_0_compat, HD.
Qed.

Lemma sch_q_pos (i : Z) : 0 <= i < w -> (0 < sch_q c w i)%Q.
Proof.
  intros Hi. rewrite sch_q_scaled by lia.
  apply Qmult_lt_0_compat;
    [apply annuity_fraction_pos; assumption | apply payment_factor_pos].
Qed.

Lemma sch_q_mono (i j : Z) :
  0 <= i <= j -> j <= w -> (sch_q c w j <= sch_q c w i)%Q.
Proof.
  intros Hi Hj. rewrite !sch_q_scaled by lia.
  apply Qmult_le_compat_r;
    [apply annuity_fraction_mono; lia
    | apply Qlt_le_weak, payment_factor_pos].
Qed.

Lemma sch_q_nonneg (i : Z) : 0 <= i <= w -> (0 <= sch_q c w i)%Q.
Proof.
  intros Hi. rewrite <- sch_q_last at 1.
  apply sch_q_mono; lia.
Qed.

End Curve.

(** ** One month *)

Ltac step_inv H adb af pf :=
  let Eadb := fresh "Eadb" in
  let Eaf := fresh "Eaf" in
  let Epf := fresh "Epf" in
  cbv beta zeta delta [month_step] in H;
  destruct (scan_queue _ _ _ _) as [adb|] eqn:Eadb; [|discriminate H];
  cbn [bind] in H;
  destruct (month_amort_factor _ _) as [af|] eqn:Eaf; [|discriminate H];
  cbn [bind] in H;
  destruct (pool_factor_of _ _ _) as [pf|] eqn:Epf; [|discriminate H];
  cbn [bind] in H;
  injection H as H; subst.

Lemma fgt_mul_zero (x : flt) : fgt (fmul x (Fin 0)) (Fin 0) = false.
Proof.
  destruct x; try reflexivity. cbn.
  replace (Qle_bool (q * 0) 0) with true; [reflexivity|].
  symmetry. apply Qle_bool_iff. rewrite Qmult_0_r. apply Qle_refl.
Qed.

Lemma Qpos_true (q : Q) : (0 < q)%Q -> negb (Qle_bool q 0) = true.
Proof.
  intros H. destruct (Qle_bool q 0) eqn:E; [|reflexivity].
  apply Qle_bool_iff in E. lra.
Qed.

Lemma Qzero_false (q : Q) : ~ (q == 0)%Q -> Qzero q = false.
Proof.
  intros H. unfold Qzero. destruct (Qeq_bool q 0) eqn:E; [|reflexivity].
  apply Qeq_bool_eq in E. contradiction.
Qed.

(** A positive default amount is only booked while the rate is on. *)
Lemma new_def_gate (p : params) (x : flt) (month : Z) :
  fgt (fmul x (Fin (month_mdr p month))) (Fin 0) = true ->
  month <= wam p - months_to_liquidation p.
Proof.
  unfold month_mdr.
  destruct (month >? wam p - months_to_liquidation p) eqn:E.
  - rewrite fgt_mul_zero. discriminate.
  - intros _. rewrite Z.gtb_ltb in E. apply Z.ltb_ge in E. exact E.
Qed.

Lemma month_step_facts (p : params) (sch_am : list flt)
    (s : loop_state) (m : Z) (s' : loop_state) :
  month_step p sch_am s m = Ok s' ->
  exists r adb af, month_facts p sch_am s m s' r adb af.
Proof.
  intros H. step_inv H adb af pf.
  eexists _, adb, (fst af).
  constructor; cbn; try reflexivity; try assumption.
  exists (snd af). now destruct af.
Qed.

Section OnTheCurve.

Variable p : params.
Hypothesis wac_pos : (0 < wac p)%Q.
Hypothesis wam_pos : 0 < wam p.

Lemma c_pos : (0 < wac p / 1200)%Q.
Proof. apply Qlt_shift_div_l; [reflexivity|lra]. Qed.

Lemma month_amort_factor_curve (m : Z) :
  1 <= m <= wam p ->
  month_amort_factor (curve (wac p / 1200) (wam p)) m
    = Ok (Fin (af_q (wac p / 1200) (wam p) m), true).
Proof.
  intros Hm. unfold month_amort_factor.
  rewrite curve_len by lia.
  replace (m >? 0) with true by (symmetry; apply Z.gtb_lt; lia).
  replace (m <? wam p + 1) with true by (symmetry; apply Z.ltb_lt; lia).
  cbn [andb]. rewrite !curve_get by lia. cbn [bind].
  pose proof (sch_q_pos (wac p / 1200) (wam p) c_pos wam_pos (m - 1)
                ltac:(lia)) as Hpos.
  cbn [fgt]. rewrite Qpos_true by exact Hpos.
  cbn [fdiv]. rewrite Qzero_false by lra.
  reflexivity.
Qed.

(** The scan never raises: a maturing entry was booked in some month
    [1..month], and that month is the index it reads. *)
Lemma scan_queue_ok (m : Z) (q : list default) :
  1 <= m <= wam p ->
  (forall d, In d q ->
     0 <= recovery_month d - months_to_liquidation p <= wam p) ->
  exists adb, scan_queue p (curve (wac p / 1200) (wam p)) m q = Ok adb.
Proof.
  intros Hm. unfold scan_queue. generalize (Fin 0) as acc.
  induction q as [|d q IH]; intros acc Hq; cbn [foldM].
  - now exists acc.
  - assert (exists acc',
              adb_add p (curve (wac p / 1200) (wam p)) m acc d = Ok acc')
      as (acc' & E).
    { unfold adb_add. destruct (recovery_month d =? m) eqn:Em.
      - apply Z.eqb_eq in Em.
        destruct (pi_advanced p && (m >? 0)
                  && (m - 1 <? len (curve (wac p / 1200) (wam p)))).
        + rewrite !curve_get; [cbn [bind]; eauto| |lia].
          specialize (Hq d (or_introl eq_refl)). lia.
        + eauto.
      - eauto. }
    rewrite E. cbn [bind]. apply IH.
    intros d' Hd'. apply Hq. now right.
Qed.

Lemma month_step_ok (m : Z) (s : loop_state) :
  1 <= m <= wam p -> wf p (m - 1) s ->
  exists s',
    month_step p (curve (wac p / 1200) (wam p)) s m = Ok s' /\ wf p m s'.
Proof.
  intros Hm [Hrows Hnp (P & HP) Hq].
  cbv beta zeta delta [month_step].
  set (new_def := fmul (perf_bal_prev s) (Fin (month_mdr p m))).
  set (queue := if fgt new_def (Fin 0) then _ else _).
  assert (Hq' : forall d, In d queue ->
            exists o, 1 <= o <= m /\ o <= wam p - months_to_liquidation p /\
                      recovery_month d = o + months_to_liquidation p).
  { intros d Hd. subst queue. destruct (fgt new_def (Fin 0)) eqn:Eg.
    - apply in_app_or in Hd. destruct Hd as [Hd|[<-|[]]].
      + destruct (Hq d Hd) as (o & ? & ? & ?). exists o. lia.
      + exists m. cbn. apply new_def_gate in Eg. lia.
    - destruct (Hq d Hd) as (o & ? & ? & ?). exists o. lia. }
  destruct (scan_queue_ok m queue Hm) as (adb & Eadb).
  { intros d Hd. destruct (Hq' d Hd) as (o & ? & ? & ->). lia. }
  rewrite Eadb. cbn [bind].
  rewrite month_amort_factor_curve by exact Hm. cbn [bind fst snd].
  rewrite orb_true_r. cbn [pool_factor_of bind].
  eexists. split; [reflexivity|].
  constructor; cbn [results perf_is_np perf_bal_prev default_queue].
  - unfold len in *. rewrite length_app. cbn [List.length]. lia.
  - reflexivity.
  - subst new_def. rewrite HP. cbn. eauto.
  - exact Hq'.
Qed.

(** The loop over the first [n] months returns, and keeps whatever the
    months keep. *)
Lemma engine_upto_inv (Inv : Z -> loop_state -> Prop) (n : Z) :
  0 <= n <= wam p ->
  Inv 0 (init_state p) ->
  (forall m s s', 1 <= m <= n -> wf p (m - 1) s -> Inv (m - 1) s ->
     month_step p (curve (wac p / 1200) (wam p)) s m = Ok s' -> Inv m s') ->
  exists s,
    engine_upto p (curve (wac p / 1200) (wam p)) n = Ok s /\
    wf p n s /\ Inv n s.
Proof.
  intros Hn H0 Hstep. unfold engine_upto.
  destruct (for_range_inv (month_step p (curve (wac p / 1200) (wam p)))
              (fun i s => wf p (i - 1) s /\ Inv (i - 1) s)
              1 (n + 1) (init_state p)) as (s & Es & Hs).
  - lia.
  - split; [|exact H0].
    constructor; cbn; try reflexivity; try lia; try contradiction; eauto.
  - intros i s Hi [Hwf Hinv].
    destruct (month_step_ok i s ltac:(lia) Hwf) as (s' & E & Hwf').
    exists s'. split; [exact E|].
    replace (i + 1 - 1) with i by lia. split; [exact Hwf'|].
    apply (Hstep i s s'); auto. lia.
  - exists s. replace (n + 1 - 1) with n in Hs by lia. tauto.
Qed.

Lemma engine_is_upto :
  engine p = engine_upto p (curve (wac p / 1200) (wam p)) (wam p).
Proof.
  unfold engine. rewrite build_sch_am_ok by assumption. reflexivity.
Qed.

End OnTheCurve.

(** ** The whole run *)

Lemma display_df_rows (rs : list row) :
  0 < len rs -> display_df rs = Ok (display_rows rs).
Proof. destruct rs; [cbn; lia | reflexivity]. Qed.

Lemma len_display (rs : list row) : len (display_rows rs) = len rs.
Proof. unfold len, display_rows. now rewrite length_map. Qed.

Lemma nth_error_display (rs : list row) (k : nat) :
  nth_error (display_rows rs) k
    = option_map (to_display (has_recovery rs)) (nth_error rs k).
Proof. unfold display_rows. apply nth_error_map. Qed.

Lemma in_display (rs : list row) (r : row) :
  In r (display_rows rs) ->
  exists r0, In r0 rs /\ r = to_display (has_recovery rs) r0.
Proof.
  intros H. apply in_map_iff in H. destruct H as (r0 & <- & H). eauto.
Qed.

(** A column of [None] stays as it is. *)
Lemma has_recovery_none (rs : list row) :
  (forall r, In r rs -> In_Recovery_Month r = None) ->
  has_recovery rs = false.
Proof.
  intros H. unfold has_recovery.
  destruct (existsb _ rs) eqn:E; [|reflexivity].
  apply existsb_exists in E. destruct E as (r & Hr & E).
  now rewrite (H r Hr) in E.
Qed.

(** With a positive coupon and a positive term the call returns one
    record per month, whatever the other arguments are; an invariant of
    the months holds of the final loop variables. *)
Lemma calculate_inv (p : params) (Inv : Z -> loop_state -> Prop) :
  (0 < wac p)%Q -> 0 < wam p ->
  Inv 0 (init_state p) ->
  (forall m s s', 1 <= m <= wam p -> wf p (m - 1) s -> Inv (m - 1) s ->
     month_step p (curve (wac p / 1200) (wam p)) s m = Ok s' -> Inv m s') ->
  exists s,
    engine p = Ok s /\ wf p (wam p) s /\ Inv (wam p) s /\
    calculate_mortgage_cash_flows_with_defaults p
      = Ok (display_rows (results s)).
Proof.
  intros Hc Hw H0 Hstep.
  destruct (engine_upto_inv p Hc Hw Inv (wam p) ltac:(lia) H0 Hstep)
    as (s & Es & Hwf & Hinv).
  exists s. rewrite <- engine_is_upto in Es by assumption.
  split; [exact Es|]. split; [exact Hwf|]. split; [exact Hinv|].
  unfold calculate_mortgage_cash_flows_with_defaults.
  rewrite Es. cbn [bind]. apply display_df_rows.
  rewrite (wf_rows _ _ _ Hwf). exact Hw.
Qed.

Lemma calculate_returns (p : params) :
  (0 < wac p)%Q -> 0 < wam p ->
  exists rs,
    calculate_mortgage_cash_flows_with_defaults p = Ok rs /\
    len rs = wam p.
Proof.
  intros Hc Hw.
  destruct (calculate_inv p (fun _ _ => True) Hc Hw I) as (s & _ & Hwf & _ & E);
    [auto|].
  eexists. split; [exact E|].
  rewrite len_display. apply (wf_rows _ _ _ Hwf).
Qed.

(** ** Reading the performing balance off the records *)

Lemma performing_app (p : params) (rs l : list row) (m : Z) :
  0 <= m <= len rs -> performing p (rs ++ l) m = performing p rs m.
Proof.
  intros Hm. unfold performing. destruct (m =? 0) eqn:E; [reflexivity|].
  apply Z.eqb_neq in E.
  rewrite nth_error_app1 by (unfold len in Hm; lia). reflexivity.
Qed.

Lemma performing_display (p : params) (rs : list row) (m : Z) :
  performing p (display_rows rs) m = performing p rs m.
Proof.
  unfold performing. destruct (m =? 0); [reflexivity|].
  rewrite nth_error_display. now destruct (nth_error rs _).
Qed.

(** ** The curve against the annuity formula *)

(** C3, as the code has it. For a positive term and a positive monthly
    coupon [c], the builder returns [wam + 1] values; the value at index
    [i] is the annuity remaining-balance fraction times the constant
    [c / (1 - (1+c)^-wam)], so the value at index 0 is that constant; the
    value at index [wam] is 0 and the values do not increase with the
    index. *)
Theorem C3_curve_is_scaled_annuity (wac : Q) (w : Z) :
  (0 < wac)%Q -> 0 < w ->
  let c := (wac / 1200)%Q in
  exists sch,
    build_sch_am wac w = Ok sch /\
    len sch = w + 1 /\
    (forall i, 0 <= i <= w ->
       exists x, np_get sch i = Ok (Fin x) /\
         (x == annuity_fraction c w i * (c / (1 - disc c w)))%Q) /\
    (exists x, np_get sch 0 = Ok (Fin x) /\ (x == c / (1 - disc c w))%Q) /\
    np_get sch w = Ok (Fin 0) /\
    (forall i j, 0 <= i <= j -> j <= w ->
       exists x y, np_get sch i = Ok (Fin x) /\ np_get sch j = Ok (Fin y) /\
                   (y <= x)%Q).
Proof.
  intros Hc Hw c.
  assert (Hc' : (0 < c)%Q) by (apply Qlt_shift_div_l; [reflexivity|lra]).
  exists (curve c w). split; [apply build_sch_am_ok; assumption|].
  split; [apply curve_len; lia|].
  split; [|split; [|split]].
  - intros i Hi. exists (sch_q c w i).
    split; [apply curve_get; lia | apply sch_q_scaled; assumption].
  - exists (sch_q c w 0).
    split; [apply curve_get; lia | apply sch_q_first; assumption].
  - rewrite curve_get by lia. now rewrite sch_q_last.
  - intros i j Hi Hj. exists (sch_q c w i), (sch_q c w j).
    split; [apply curve_get; lia|].
    split; [apply curve_get; lia|].
    apply sch_q_mono; assumption.
Qed.

Lemma C3_curve_is_scaled_annuity_witness :
  (0 < 1200)%Q /\ 0 < 3 /\
  exists sch,
    build_sch_am 1200 3 = Ok sch /\
    len sch = 3 + 1 /\
    (forall i, 0 <= i <= 3 ->
       exists x, np_get sch i = Ok (Fin x) /\
         (x == annuity_fraction (1200 / 1200) 3 i
               * ((1200 / 1200) / (1 - disc (1200 / 1200) 3)))%Q) /\
    (exists x, np_get sch 0 = Ok (Fin x) /\
               (x == (1200 / 1200) / (1 - disc (1200 / 1200) 3))%Q) /\
    np_get sch 3 = Ok (Fin 0) /\
    (forall i j, 0 <= i <= j -> j <= 3 ->
       exists x y, np_get sch i = Ok (Fin x) /\ np_get sch j = Ok (Fin y) /\
                   (y <= x)%Q).
Proof.
  split; [reflexivity|]. split; [reflexivity|].
  apply (C3_curve_is_scaled_annuity 1200 3); reflexivity.
Defined.

(** C3 as stated fails: with [wam = 1] and [c = 1] the annuity fraction at
    index 0 is 1, and the builder stores 2 there. *)
Lemma C3_counterexample :
  (0 < 1200 / 1200)%Q /\ 0 < 1 /\
  exists sch x,
    build_sch_am 1200 1 = Ok sch /\
    np_get sch 0 = Ok (Fin x) /\
    (x == 2)%Q /\
    (annuity_fraction (1200 / 1200) 1 0 == 1)%Q /\
    ~ (x == annuity_fraction (1200 / 1200) 1 0)%Q.
Proof.
  split; [reflexivity|]. split; [reflexivity|].
  eexists _, _. split; [vm_compute; reflexivity|].
  split; [vm_compute; reflexivity|].
  split; [reflexivity|]. split; [reflexivity|].
  intros H. vm_compute in H. discriminate H.
Qed.

(** ** Zero coupon *)

Lemma zero_coupon_raises (p : params) :
  (wac p == 0)%Q -> 0 < wam p ->
  calculate_mortgage_cash_flows_with_defaults p = Raise ZeroDivisionError.
Proof.
  intros Hc Hw.
  unfold calculate_mortgage_cash_flows_with_defaults, engine, build_sch_am.
  unfold np_zeros.
  replace (wam p + 1 <? 0) with false by (symmetry; apply Z.ltb_ge; lia).
  cbn [bind]. rewrite py_range_cons by lia. cbn [foldM].
  assert (E : sch_value (wac p / 1200) (wam p) 0 = Raise ZeroDivisionError).
  { unfold sch_value. rewrite Z.sub_0_r.
    replace (wam p >? 0) with true by (symmetry; apply Z.gtb_lt; lia).
    assert (H1 : (1 + wac p / 1200 == 1)%Q) by (rewrite Hc; reflexivity).
    unfold py_pow.
    replace (Qeq_bool (1 + wac p / 1200) 0) with false.
    2:{ symmetry. destruct (Qeq_bool (1 + wac p / 1200) 0) eqn:E;
          [|reflexivity].
        apply Qeq_bool_eq in E. rewrite H1 in E. discriminate E. }
    cbn [andb bind]. unfold py_div.
    replace (Qeq_bool (1 - (1 + wac p / 1200) ^ (- wam p)) 0) with true;
      [reflexivity|].
    symmetry. apply Qeq_bool_iff. rewrite H1, Qpower_1. reflexivity. }
  rewrite E. reflexivity.
Qed.

(** C4, at the script's own pool with [wac = 0]: there is no straight-line
    fallback; computing index 0 of the curve divides [1 - 1.0] by
    [1 - 1.0] on Python floats and the call ends in ZeroDivisionError. *)
Theorem C4_zero_coupon_division_by_zero :
  calculate_mortgage_cash_flows_with_defaults pool_zero_coupon
    = Raise ZeroDivisionError.
Proof. apply zero_coupon_raises; reflexivity. Qed.

(** ** No validation of the arguments *)

Lemma negative_term_raises (p : params) :
  wam p < -1 ->
  calculate_mortgage_cash_flows_with_defaults p = Raise ValueError.
Proof.
  intros Hw.
  unfold calculate_mortgage_cash_flows_with_defaults, engine, build_sch_am.
  unfold np_zeros.
  replace (wam p + 1 <? 0) with true by (symmetry; apply Z.ltb_lt; lia).
  reflexivity.
Qed.

Lemma no_term_raises (p : params) :
  -1 <= wam p <= 0 ->
  calculate_mortgage_cash_flows_with_defaults p = Raise KeyError.
Proof.
  intros Hw.
  unfold calculate_mortgage_cash_flows_with_defaults, engine, build_sch_am.
  destruct (Z.eq_dec (wam p) 0) as [E0|N0].
  - rewrite E0. vm_compute. reflexivity.
  - replace (wam p) with (-1) by lia. vm_compute. reflexivity.
Qed.

(** C5, as the code has it. The function checks none of its arguments.
    With a term below -1 the allocation of the curve raises ValueError;
    with a term of 0 or -1 the loop runs over no month and the formatting
    of the empty table raises KeyError; in both cases no record is
    returned.  With a positive term and a positive coupon the call returns
    one record per month whatever the balance, the liquidation lag and the
    rate percentages are. *)
Theorem C5_no_validation (p : params) :
  (wam p < -1 ->
     calculate_mortgage_cash_flows_with_defaults p = Raise ValueError) /\
  (-1 <= wam p <= 0 ->
     calculate_mortgage_cash_flows_with_defaults p = Raise KeyError) /\
  (0 < wam p -> (0 < wac p)%Q ->
     exists rs,
       calculate_mortgage_cash_flows_with_defaults p = Ok rs /\
       len rs = wam p).
Proof.
  split; [apply negative_term_raises|].
  split; [apply no_term_raises|].
  intros Hw Hc. apply calculate_returns; assumption.
Qed.

Lemma C5_no_validation_witness :
  (-1 <= wam pool_no_term <= 0 /\
   calculate_mortgage_cash_flows_with_defaults pool_no_term
     = Raise KeyError) /\
  (0 < wam pool_out_of_range /\ (0 < wac pool_out_of_range)%Q /\
   exists rs,
     calculate_mortgage_cash_flows_with_defaults pool_out_of_range = Ok rs /\
     len rs = wam pool_out_of_range).
Proof.
  split.
  - split; [split; discriminate|].
    apply (proj1 (proj2 (C5_no_validation pool_no_term))).
    split; discriminate.
  - split; [reflexivity|]. split; [reflexivity|].
    apply (proj2 (proj2 (C5_no_validation pool_out_of_range))); reflexivity.
Defined.

(** C5 as stated fails: a pool with a negative balance, a liquidation lag
    beyond the term and rates outside [0,100] is not rejected; the call
    returns its three monthly records. *)
Lemma C5_counterexample :
  (initial_balance pool_out_of_range <= 0)%Q /\
  months_to_liquidation pool_out_of_range >= wam pool_out_of_range /\
  (100 < prepay_rate_smm pool_out_of_range)%Q /\
  (default_rate_mdr pool_out_of_range < 0)%Q /\
  exists rs,
    calculate_mortgage_cash_flows_with_defaults pool_out_of_range = Ok rs /\
    len rs = 3.
Proof.
  split; [discriminate|]. split; [discriminate|].
  split; [reflexivity|]. split; [reflexivity|].
  apply (calculate_returns pool_out_of_range); reflexivity.
Qed.

(** ** Liquidation lag as long as the term *)

Lemma month_mdr_off (p : params) (m : Z) :
  m > wam p - months_to_liquidation p -> month_mdr p m = 0%Q.
Proof.
  intros H. unfold month_mdr.
  replace (m >? wam p - months_to_liquidation p) with true; [reflexivity|].
  symmetry. apply Z.gtb_lt. lia.
Qed.

(** C7. With a liquidation lag of [wam] months or more (positive coupon
    and term) the call is not rejected: it returns one record per month;
    no entry of the default queue has its recovery month in [1..wam] (the
    queue stays empty); and principal recovery and principal loss are 0 in
    every record. *)
Theorem C7_lag_beyond_term (p : params) :
  (0 < wac p)%Q -> 0 < wam p ->
  months_to_liquidation p >= wam p ->
  exists s rs,
    engine p = Ok s /\
    calculate_mortgage_cash_flows_with_defaults p = Ok rs /\
    len rs = wam p /\
    (forall d, In d (default_queue s) ->
       ~ (1 <= recovery_month d <= wam p)) /\
    (forall r, In r rs ->
       Principal_Recovery r = Fin 0 /\ Principal_Loss r = Fin 0 /\
       In_Recovery_Month r = None).
Proof.
  intros Hc Hw Hlag.
  destruct (calculate_inv p
    (fun _ s => default_queue s = [] /\
                forall r, In r (results s) ->
                  Principal_Recovery r = Fin 0 /\ Principal_Loss r = Fin 0 /\
                  In_Recovery_Month r = None)
    Hc Hw) as (s & Es & Hwf & [Hq Hrows] & E).
  - split; [reflexivity|]. intros r [].
  - intros m s s' Hm _ [Hq Hrows] Hstep.
    destruct (month_step_facts _ _ _ _ _ Hstep) as (r & adb & af & F).
    pose proof (mf_queue _ _ _ _ _ _ _ _ F) as Eq.
    rewrite (mf_new_def _ _ _ _ _ _ _ _ F) in Eq.
    rewrite month_mdr_off, fgt_mul_zero, Hq in Eq by lia.
    pose proof (mf_scan _ _ _ _ _ _ _ _ F) as Escan.
    rewrite Eq in Escan. cbn in Escan. injection Escan as <-.
    split; [exact Eq|].
    intros r' Hr'. rewrite (mf_results _ _ _ _ _ _ _ _ F) in Hr'.
    apply in_app_or in Hr'. destruct Hr' as [Hr'|[<-|[]]]; [auto|].
    pose proof (mf_loss _ _ _ _ _ _ _ _ F) as El. cbn in El.
    pose proof (mf_recov _ _ _ _ _ _ _ _ F) as Er. rewrite El in Er.
    pose proof (mf_inrec _ _ _ _ _ _ _ _ F) as Ei. cbn in Ei.
    repeat split; assumption.
  - exists s, (display_rows (results s)).
    split; [exact Es|]. split; [exact E|].
    split; [rewrite len_display; apply (wf_rows _ _ _ Hwf)|].
    split.
    + rewrite Hq. intros d [].
    + intros r Hr. apply in_display in Hr. destruct Hr as (r0 & Hr0 & ->).
      rewrite has_recovery_none by (intros r1 Hr1; apply (Hrows r1 Hr1)).
      destruct (Hrows r0 Hr0) as (H1 & H2 & H3).
      cbn [to_display Principal_Recovery Principal_Loss In_Recovery_Month].
      rewrite H3. auto.
Qed.

Lemma C7_lag_beyond_term_witness :
  (0 < wac pool_long_lag)%Q /\ 0 < wam pool_long_lag /\
  months_to_liquidation pool_long_lag >= wam pool_long_lag /\
  exists s rs,
    engine pool_long_lag = Ok s /\
    calculate_mortgage_cash_flows_with_defaults pool_long_lag = Ok rs /\
    len rs = wam pool_long_lag /\
    (forall d, In d (default_queue s) ->
       ~ (1 <= recovery_month d <= wam pool_long_lag)) /\
    (forall r, In r rs ->
       Principal_Recovery r = Fin 0 /\ Principal_Loss r = Fin 0 /\
       In_Recovery_Month r = None).
Proof.
  split; [reflexivity|]. split; [reflexivity|]. split; [discriminate|].
  apply (C7_lag_beyond_term pool_long_lag);
    [reflexivity | reflexivity | discriminate].
Defined.

(** ** The divisor of the amortized default balance *)

(** With a lag of at least one month a maturing entry divides by a value
    of the curve before its end, which is positive. *)
Lemma maturing_divisor_positive (p : params) (m : Z) (s : loop_state)
    (d : default) :
  (0 < wac p)%Q -> 0 < wam p -> 1 <= months_to_liquidation p ->
  1 <= m <= wam p ->
  engine_upto p (curve (wac p / 1200) (wam p)) m = Ok s ->
  In d (default_queue s) -> recovery_month d = m ->
  exists x,
    np_get (curve (wac p / 1200) (wam p)) (m - months_to_liquidation p)
      = Ok (Fin x) /\ (0 < x)%Q.
Proof.
  intros Hc Hw Hlag Hm Es Hd Hrec.
  destruct (engine_upto_inv p Hc Hw (fun _ _ => True) m ltac:(lia) I)
    as (s' & Es' & Hwf & _); [auto|].
  rewrite Es in Es'. injection Es' as <-.
  destruct (wf_queue _ _ _ Hwf d Hd) as (o & Ho & Ho' & Eo).
  replace (m - months_to_liquidation p) with o by lia.
  exists (sch_q (wac p / 1200) (wam p) o).
  split; [apply curve_get; lia|].
  apply sch_q_pos; [apply c_pos; assumption | assumption | lia].
Qed.

(** C10, at a two-month pool with no liquidation lag.  The default booked
    in month 2 matures in month 2 with P&I advanced, and the divisor
    [sch_am[month - months_to_liquidation]] is [sch_am[2]], the 0 that
    ends the curve: the numpy division yields [inf], and the month's
    record carries [inf] and [nan]. *)
Theorem C10_zero_divisor_without_lag :
  (0 < wac pool_no_lag / 1200)%Q /\
  0 <= months_to_liquidation pool_no_lag < wam pool_no_lag /\
  pi_advanced pool_no_lag = true /\
  exists sch s rs r,
    build_sch_am (wac pool_no_lag) (wam pool_no_lag) = Ok sch /\
    engine pool_no_lag = Ok s /\
    (exists d, In d (default_queue s) /\
               recovery_month d = wam pool_no_lag) /\
    np_get sch (wam pool_no_lag - months_to_liquidation pool_no_lag)
      = Ok (Fin 0) /\
    calculate_mortgage_cash_flows_with_defaults pool_no_lag = Ok rs /\
    nth_error rs 1 = Some r /\
    Month r = wam pool_no_lag /\
    In_Recovery_Month r = Some PInf /\
    Principal_Loss r = PInf /\
    Principal_Recovery r = NaN.
Proof.
  split; [reflexivity|]. split; [split; [discriminate|reflexivity]|].
  split; [reflexivity|].
  eexists _, _, _, _.
  split; [vm_compute; reflexivity|].
  split; [vm_compute; reflexivity|].
  split; [eexists; split; [right; left; reflexivity|reflexivity]|].
  split; [reflexivity|].
  split; [vm_compute; reflexivity|].
  split; [reflexivity|].
  repeat split.
Qed.

(** ** The amortization factor on the curve *)

Section AmortFactor.

Variables (c : Q) (w : Z).
Hypothesis c_gt0 : (0 < c)%Q.
Hypothesis w_gt0 : 0 < w.

Lemma af_q_last : (af_q c w w == 1)%Q.
Proof.
  unfold af_q. rewrite sch_q_last. unfold Qdiv. ring.
Qed.



End AmortFactor.

Lemma month_mdr_zero (p : params) (m : Z) :
  (default_rate_mdr p == 0)%Q -> (month_mdr p m == 0)%Q.
Proof.
  intros H. unfold month_mdr.
  destruct (m >? wam p - months_to_liquidation p); [reflexivity|].
  rewrite H. reflexivity.
Qed.



Lemma fgt_zero_false (q : Q) : (q <= 0)%Q -> fgt (Fin q) (Fin 0) = false.
Proof.
  intros H. cbn. replace (Qle_bool q 0) with true; [reflexivity|].
  symmetry. now apply Qle_bool_iff.
Qed.

(** The factor a step reads on the curve. *)
Lemma month_facts_af (p : params) (s s' : loop_state) (m : Z) (r : row)
    (adb af : flt) :
  (0 < wac p)%Q -> 0 < wam p -> 1 <= m <= wam p ->
  month_facts p (curve (wac p / 1200) (wam p)) s m s' r adb af ->
  af = Fin (af_q (wac p / 1200) (wam p) m).
Proof.
  intros Hc Hw Hm F.
  destruct (mf_af _ _ _ _ _ _ _ _ F) as (b & E).
  rewrite month_amort_factor_curve in E by assumption.
  now injection E.
Qed.

(** From the second record on the performing balance is a numpy scalar,
    so the pool factor is the numpy quotient. *)
Lemma month_facts_pool (p : params) (sch : list flt) (s s' : loop_state)
    (m : Z) (r : row) (adb af : flt) :
  month_facts p sch s m s' r adb af ->
  Amort_Factor r = fdiv (Performing_Balance r) (Fin (initial_balance p)).
Proof.
  intros F. pose proof (mf_pool _ _ _ _ _ _ _ _ F) as E.
  unfold pool_factor_of in E.
  destruct (perf_is_np s'); [now injection E|].
  destruct (Qzero (initial_balance p)); [discriminate E | now injection E].
Qed.

(** ** Rollforward of the performing balance *)

(** One month on numbers: the fields the performing balance goes
    through, from the balance [P] the month starts with. *)
Lemma month_balance (p : params) (s s' : loop_state) (m : Z) (r : row)
    (adb af : flt) (P : Q) :
  (0 < wac p)%Q -> 0 < wam p -> 1 <= m <= wam p ->
  month_facts p (curve (wac p / 1200) (wam p)) s m s' r adb af ->
  perf_bal_prev s = Fin P ->
  New_Defaults r = Fin (P * month_mdr p m) /\
  Voluntary_Prepayments r
    = Fin (P * af_q (wac p / 1200) (wam p) m * (prepay_rate_smm p / 100)) /\
  Actual_Amort r
    = Fin ((P - P * month_mdr p m) * af_q (wac p / 1200) (wam p) m) /\
  Performing_Balance r
    = Fin (perf_step (month_mdr p m) (prepay_rate_smm p / 100)
             (af_q (wac p / 1200) (wam p) m) P) /\
  Amort_Factor r = fdiv (Performing_Balance r) (Fin (initial_balance p)).
Proof.
  intros Hc Hw Hm F HP.
  pose proof (month_facts_af p s s' m r adb af Hc Hw Hm F) as Eaf.
  pose proof (mf_new_def _ _ _ _ _ _ _ _ F) as End.
  pose proof (mf_act _ _ _ _ _ _ _ _ F) as Eact.
  pose proof (mf_vol _ _ _ _ _ _ _ _ F) as Evol.
  pose proof (mf_perf _ _ _ _ _ _ _ _ F) as Epb.
  rewrite HP in End. rewrite HP, End, Eaf in Eact. rewrite HP, Eaf in Evol.
  rewrite HP, End, Evol, Eact in Epb.
  cbn [fmul fsub] in End, Eact, Evol, Epb.
  split; [exact End|]. split; [exact Evol|]. split; [exact Eact|].
  split; [exact Epb|]. apply (month_facts_pool _ _ _ _ _ _ _ _ F).
Qed.

Lemma rolls_forward_app (p : params) (rs l : list row) (m : Z) :
  1 <= m -> rolls_forward p rs m -> rolls_forward p (rs ++ l) m.
Proof.
  intros Hm (r & prev & nd & vp & aa & Hr & Hmo & Hprev & H).
  assert (Hlt : (Z.to_nat (m - 1) < List.length rs)%nat).
  { apply nth_error_Some. congruence. }
  exists r, prev, nd, vp, aa.
  split; [rewrite nth_error_app1; assumption|].
  split; [exact Hmo|].
  split; [rewrite performing_app; [assumption | unfold len; lia]|].
  exact H.
Qed.

Lemma rolls_forward_display (p : params) (rs : list row) (m : Z) :
  rolls_forward p rs m -> rolls_forward p (display_rows rs) m.
Proof.
  intros (r & prev & nd & vp & aa & Hr & Hmo & Hprev & H).
  exists (to_display (has_recovery rs) r), prev, nd, vp, aa.
  split; [rewrite nth_error_display, Hr; reflexivity|].
  split; [exact Hmo|].
  split; [now rewrite performing_display|].
  exact H.
Qed.

(** C1. In every run with a positive coupon and a positive term (the runs
    that emit records), the record of each month [m] in [1..wam] holds
    numbers in its performing balance, new defaults, voluntary prepayments
    and actual amortization, and
    performing[m] = performing[m-1] - new_defaults[m]
                    - voluntary_prepayments[m] - actual_amortization[m],
    the expression of line 139, where performing[0] is the initial
    balance. *)
Theorem C1_performing_rollforward (p : params) :
  (0 < wac p)%Q -> 0 < wam p ->
  exists rs,
    calculate_mortgage_cash_flows_with_defaults p = Ok rs /\
    len rs = wam p /\
    forall m, 1 <= m <= wam p -> rolls_forward p rs m.
Proof.
  intros Hc Hw.
  destruct (calculate_inv p
    (fun m s => performing p (results s) m = Some (perf_bal_prev s) /\
                forall k, 1 <= k <= m -> rolls_forward p (results s) k)
    Hc Hw) as (s & _ & Hwf & [_ Hroll] & E).
  - split; [reflexivity|]. intros k Hk. lia.
  - intros m s s' Hm Hwf [Hperf Hroll] Hstep.
    pose proof (wf_rows _ _ _ Hwf) as Hlen.
    destruct (wf_perf _ _ _ Hwf) as (P & HP).
    destruct (month_step_facts _ _ _ _ _ Hstep) as (r & adb & af & F).
    destruct (month_balance p s s' m r adb af P Hc Hw Hm F HP)
      as (End & Evol & Eact & Epb & _).
    assert (Hnth : nth_error (results s ++ [r]) (Z.to_nat (m - 1)) = Some r).
    { rewrite nth_error_app2 by (unfold len in Hlen; lia).
      replace (Z.to_nat (m - 1) - List.length (results s))%nat with 0%nat
        by (unfold len in Hlen; lia).
      reflexivity. }
    rewrite (mf_results _ _ _ _ _ _ _ _ F). split.
    + unfold performing.
      replace (m =? 0) with false by (symmetry; apply Z.eqb_neq; lia).
      rewrite Hnth. cbn. f_equal. symmetry. apply (mf_perf' _ _ _ _ _ _ _ _ F).
    + intros k Hk. destruct (Z.eq_dec k m) as [->|Hne].
      * eexists r, P, _, _, _.
        split; [exact Hnth|].
        split; [apply (mf_month _ _ _ _ _ _ _ _ F)|].
        split; [rewrite performing_app by lia; rewrite Hperf, HP; reflexivity|].
        split; [exact End|]. split; [exact Evol|]. split; [exact Eact|].
        exact Epb.
      * apply rolls_forward_app; [lia|]. apply Hroll. lia.
  - exists (display_rows (results s)).
    split; [exact E|].
    split; [rewrite len_display; apply (wf_rows _ _ _ Hwf)|].
    intros m Hm. apply rolls_forward_display, Hroll, Hm.
Qed.

Lemma C1_performing_rollforward_witness :
  (0 < wac pool3)%Q /\ 0 < wam pool3 /\
  exists rs,
    calculate_mortgage_cash_flows_with_defaults pool3 = Ok rs /\
    len rs = wam pool3 /\
    forall m, 1 <= m <= wam pool3 -> rolls_forward pool3 rs m.
Proof.
  split; [reflexivity|]. split; [reflexivity|].
  apply (C1_performing_rollforward pool3); reflexivity.
Defined.

(** ** No prepayments and no defaults *)

(** C6. With a prepayment rate and a default rate of 0 (positive coupon
    and term), the actual amortization equals the expected amortization in
    every record, and the performing balance of month [wam] is 0, the
    value that ends the curve. *)
Theorem C6_no_prepay_no_default (p : params) :
  (0 < wac p)%Q -> 0 < wam p ->
  (prepay_rate_smm p == 0)%Q -> (default_rate_mdr p == 0)%Q ->
  exists sch rs last,
    build_sch_am (wac p) (wam p) = Ok sch /\
    calculate_mortgage_cash_flows_with_defaults p = Ok rs /\
    len rs = wam p /\
    (forall r, In r rs -> Actual_Amort r =f= Expected_Amortization r) /\
    performing p rs (wam p) = Some last /\
    last =f= Fin 0 /\
    np_get sch (wam p) = Ok (Fin 0).
Proof.
  intros Hc Hw Hsmm Hmdr.
  pose proof (c_pos p Hc) as Hc'.
  destruct (calculate_inv p
    (fun m s =>
       default_queue s = [] /\
       (exists f, fcl_prev s = Fin f /\ (f == 0)%Q) /\
       (forall r, In r (results s) ->
          Actual_Amort r =f= Expected_Amortization r) /\
       performing p (results s) m = Some (perf_bal_prev s) /\
       (m = wam p -> perf_bal_prev s =f= Fin 0))
    Hc Hw) as (s & Es & Hwf & (Hq & _ & Hrows & Hperf & Hlast) & E).
  - split; [reflexivity|]. split; [exists 0%Q; split; reflexivity|].
    split; [intros r []|]. split; [reflexivity|]. lia.
  - intros m s s' Hm Hwf (Hq & (f & Ef & Hf) & Hrows & Hperf & _) Hstep.
    destruct (month_step_facts _ _ _ _ _ Hstep) as (r & adb & af & F).
    destruct (wf_perf _ _ _ Hwf) as (P & HP).
    pose proof (month_mdr_zero p m Hmdr) as Hmdr'.
    pose proof (month_facts_af p s s' m r adb af Hc Hw Hm F) as Eaf.
    set (a := af_q (wac p / 1200) (wam p) m) in *.
    pose proof (mf_new_def _ _ _ _ _ _ _ _ F) as End.
    rewrite HP in End. cbn [fmul] in End.
    pose proof (mf_queue _ _ _ _ _ _ _ _ F) as Eq.
    rewrite End, fgt_zero_false, Hq in Eq by (rewrite Hmdr'; lra).
    pose proof (mf_scan _ _ _ _ _ _ _ _ F) as Escan.
    rewrite Eq in Escan. cbn in Escan. injection Escan as <-.
    pose proof (mf_act _ _ _ _ _ _ _ _ F) as Eact.
    pose proof (mf_exp _ _ _ _ _ _ _ _ F) as Eexp.
    pose proof (mf_vol _ _ _ _ _ _ _ _ F) as Evol.
    pose proof (mf_amdef _ _ _ _ _ _ _ _ F) as Eam.
    pose proof (mf_fcl _ _ _ _ _ _ _ _ F) as Efcl.
    pose proof (mf_perf _ _ _ _ _ _ _ _ F) as Epb.
    rewrite HP, End, Eaf in Eact. rewrite HP, Ef, Eaf in Eexp.
    rewrite HP, Eaf in Evol. rewrite End, Ef, Eaf in Eam.
    rewrite End, Ef in Efcl.
    rewrite HP, End, Evol, Eact in Epb.
    cbn [fmul fsub fadd] in Eact, Eexp, Evol, Eam, Efcl, Epb.
    split; [exact Eq|]. split; [|split; [|split]].
    + rewrite (mf_fcl' _ _ _ _ _ _ _ _ F), Efcl, Eam.
      destruct (pi_advanced p); cbn [fmul fsub fadd];
        (eexists; split; [reflexivity|]); rewrite Hf, Hmdr'; ring.
    + intros r' Hr'. rewrite (mf_results _ _ _ _ _ _ _ _ F) in Hr'.
      apply in_app_or in Hr'. destruct Hr' as [Hr'|[<-|[]]]; [auto|].
      rewrite Eact, Eexp. cbn [feq]. rewrite Hf, Hmdr'. ring.
    + rewrite (mf_results _ _ _ _ _ _ _ _ F), (mf_perf' _ _ _ _ _ _ _ _ F).
      unfold performing.
      replace (m =? 0) with false by (symmetry; apply Z.eqb_neq; lia).
      rewrite nth_error_app2
        by (pose proof (wf_rows _ _ _ Hwf) as L; unfold len in L; lia).
      replace (Z.to_nat (m - 1) - List.length (results s))%nat with 0%nat
        by (pose proof (wf_rows _ _ _ Hwf) as L; unfold len in L; lia).
      reflexivity.
    + intros ->. rewrite (mf_perf' _ _ _ _ _ _ _ _ F), Epb. cbn [feq].
      assert (Ha : (a == 1)%Q) by (apply af_q_last).
      assert (Hs : (prepay_rate_smm p / 100 == 0)%Q)
        by (rewrite Hsmm; reflexivity).
      rewrite Ha, Hs, Hmdr'. ring.
  - exists (curve (wac p / 1200) (wam p)), (display_rows (results s)),
      (perf_bal_prev s).
    split; [apply build_sch_am_ok; assumption|].
    split; [exact E|].
    split; [rewrite len_display; apply (wf_rows _ _ _ Hwf)|].
    split; [|split; [|split]].
    + intros r Hr. apply in_display in Hr. destruct Hr as (r0 & Hr0 & ->).
      apply (Hrows r0 Hr0).
    + rewrite performing_display. exact Hperf.
    + apply Hlast. reflexivity.
    + rewrite curve_get by lia. now rewrite sch_q_last.
Qed.

Lemma C6_no_prepay_no_default_witness :
  (0 < wac pool_quiet)%Q /\ 0 < wam pool_quiet /\
  (prepay_rate_smm pool_quiet == 0)%Q /\
  (default_rate_mdr pool_quiet == 0)%Q /\
  exists sch rs last,
    build_sch_am (wac pool_quiet) (wam pool_quiet) = Ok sch /\
    calculate_mortgage_cash_flows_with_defaults pool_quiet = Ok rs /\
    len rs = wam pool_quiet /\
    (forall r, In r rs -> Actual_Amort r =f= Expected_Amortization r) /\
    performing pool_quiet rs (wam pool_quiet) = Some last /\
    last =f= Fin 0 /\
    np_get sch (wam pool_quiet) = Ok (Fin 0).
Proof.
  split; [reflexivity|]. split; [reflexivity|].
  split; [reflexivity|]. split; [reflexivity|].
  apply (C6_no_prepay_no_default pool_quiet); reflexivity.
Defined.

(** ** Pool factor *)














(** ** Default entries *)

Lemma engine_upto_succ (p : params) (sch : list flt) (n : Z) :
  0 <= n ->
  engine_upto p sch (n + 1)
    = (s <- engine_upto p sch n ;; month_step p sch s (n + 1)).
Proof.
  intros Hn. unfold engine_upto.
  rewrite (py_range_snoc 1 (n + 1)) by lia. rewrite foldM_app.
  destruct (foldM _ (py_range 1 (n + 1)) _) as [s|e]; cbn; [|reflexivity].
  now destruct (month_step p sch s (n + 1)).
Qed.

(** The queue after month [m] holds the entries booked in months [1..m]. *)
Lemma queue_is_booked (p : params) (sch : list flt) (n : nat) :
  forall s d,
    engine_upto p sch (Z.of_nat n) = Ok s ->
    (In d (default_queue s) <->
     exists o, 1 <= o <= Z.of_nat n /\ booked_at p sch o d).
Proof.
  induction n as [|n IH]; intros s d Es.
  - cbn in Es. injection Es as <-. cbn. split; [intros []|].
    intros (o & Ho & _). lia.
  - replace (Z.of_nat (S n)) with (Z.of_nat n + 1) in * by lia.
    rewrite engine_upto_succ in Es by lia.
    destruct (engine_upto p sch (Z.of_nat n)) as [s0|] eqn:E0;
      [|discriminate Es].
    cbn [bind] in Es. specialize (IH s0 d eq_refl).
    destruct (month_step_facts _ _ _ _ _ Es) as (r & adb & af & F).
    rewrite (mf_queue _ _ _ _ _ _ _ _ F), (mf_new_def _ _ _ _ _ _ _ _ F).
    assert (Hb : booked_at p sch (Z.of_nat n + 1) d <->
                 fgt (fmul (perf_bal_prev s0)
                        (Fin (month_mdr p (Z.of_nat n + 1)))) (Fin 0) = true /\
                 d = {| amount := fmul (perf_bal_prev s0)
                                    (Fin (month_mdr p (Z.of_nat n + 1)));
                        recovery_month :=
                          Z.of_nat n + 1 + months_to_liquidation p |}).
    { unfold booked_at. replace (Z.of_nat n + 1 - 1) with (Z.of_nat n) by lia.
      rewrite E0. split.
      - intros (s1 & E1 & H). now injection E1 as <-.
      - intros H. exists s0. now split. }
    split.
    + intros Hin.
      destruct (fgt _ (Fin 0)) eqn:Eg.
      * apply in_app_or in Hin. destruct Hin as [Hin|[<-|[]]].
        -- apply IH in Hin. destruct Hin as (o & Ho & Hbo).
           exists o. split; [lia|exact Hbo].
        -- exists (Z.of_nat n + 1). split; [lia|]. apply Hb. now split.
      * apply IH in Hin. destruct Hin as (o & Ho & Hbo).
        exists o. split; [lia|exact Hbo].
    + intros (o & Ho & Hbo).
      destruct (Z.eq_dec o (Z.of_nat n + 1)) as [->|Hne].
      * apply Hb in Hbo. destruct Hbo as [Eg ->]. rewrite Eg.
        apply in_or_app. right. now left.
      * assert (Hin : In d (default_queue s0)).
        { apply IH. exists o. split; [lia|exact Hbo]. }
        destruct (fgt _ (Fin 0)); [apply in_or_app; now left | exact Hin].
Qed.

(** An entry that does not mature in month [m] leaves the scan of that
    month as it would be without the entry. *)
Lemma scan_queue_skips (p : params) (sch : list flt) (m : Z)
    (d : default) (q1 q2 : list default) :
  recovery_month d <> m ->
  scan_queue p sch m (q1 ++ d :: q2) = scan_queue p sch m (q1 ++ q2).
Proof.
  intros Hne. unfold scan_queue. rewrite !foldM_app.
  destruct (foldM _ q1 _) as [acc|e]; cbn [bind foldM]; [|reflexivity].
  unfold adb_add at 1.
  replace (recovery_month d =? m) with false
    by (symmetry; now apply Z.eqb_neq).
  reflexivity.
Qed.

(** ** The field named 'Amort Factor' *)

Lemma assoc_In (k : string) (l : list (string * value)) (v : value) :
  assoc k l = Some v -> In (k, v) l.
Proof.
  induction l as [|[k' v'] l IH]; cbn; [discriminate|].
  destruct (String.eqb k k') eqn:E.
  - apply String.eqb_eq in E. subst k'. intros [= ->]. now left.
  - intros H. right. now apply IH.
Qed.

(** C9, as the code has it. In every record of a run (positive coupon
    and term) the performing balance is a number [P] and the field stored
    under the key ['Amort Factor'] is the pool factor: the numpy quotient
    of [P] by the initial balance, which is [P / initial_balance] when the
    initial balance is not 0.  The amortization factor of the month,
    [1 - sch_am[month] / sch_am[month - 1]], has no key of its own: a
    record shows its value only where a field happens to have the same
    value, and in month 1 of the sample pool no field of the record
    has it. *)
Theorem C9_amort_factor_is_pool_factor :
  (forall p, (0 < wac p)%Q -> 0 < wam p ->
     exists rs,
       calculate_mortgage_cash_flows_with_defaults p = Ok rs /\
       len rs = wam p /\
       forall r, In r rs ->
         exists P,
           Performing_Balance r = Fin P /\
           assoc "Amort Factor" (items r)
             = Some (VFloat (fdiv (Fin P) (Fin (initial_balance p)))) /\
           (~ (initial_balance p == 0)%Q ->
              Amort_Factor r = Fin (P / initial_balance p))) /\
  (exists p m rs r af,
     (0 < wac p)%Q /\ 1 <= m <= wam p /\
     calculate_mortgage_cash_flows_with_defaults p = Ok rs /\
     nth_error rs (Z.to_nat (m - 1)) = Some r /\
     scheduled_factor p m = Some af /\
     af =f= Fin (1 # 3) /\
     forall key v, assoc key (items r) = Some v -> ~ value_is v af).
Proof.
  split.
  - intros p Hc Hw.
    destruct (calculate_inv p
      (fun _ s => forall r, In r (results s) ->
         exists P,
           Performing_Balance r = Fin P /\
           Amort_Factor r = fdiv (Fin P) (Fin (initial_balance p)))
      Hc Hw) as (s & _ & Hwf & Hrows & E).
    + intros r [].
    + intros m s s' Hm Hwf Hrows Hstep.
      destruct (wf_perf _ _ _ Hwf) as (P & HP).
      destruct (month_step_facts _ _ _ _ _ Hstep) as (r & adb & af & F).
      destruct (month_balance p s s' m r adb af P Hc Hw Hm F HP)
        as (_ & _ & _ & Epb & Epf).
      intros r' Hr'. rewrite (mf_results _ _ _ _ _ _ _ _ F) in Hr'.
      apply in_app_or in Hr'. destruct Hr' as [Hr'|[<-|[]]]; [auto|].
      eexists. split; [exact Epb|]. now rewrite Epf, Epb.
    + exists (display_rows (results s)). split; [exact E|].
      split; [rewrite len_display; apply (wf_rows _ _ _ Hwf)|].
      intros r Hr. apply in_display in Hr. destruct Hr as (r0 & Hr0 & ->).
      destruct (Hrows r0 Hr0) as (P & EP & EA). exists P.
      cbn [to_display Performing_Balance Amort_Factor].
      split; [exact EP|]. split.
      * cbn. now rewrite EA.
      * intros HB. rewrite EA. cbn [fdiv].
        now rewrite (Qzero_false _ HB).
  - exists pool_apart, 1. eexists _, _, _.
    split; [reflexivity|]. split; [split; discriminate|].
    split; [vm_compute; reflexivity|].
    split; [reflexivity|].
    split; [vm_compute; reflexivity|].
    split; [reflexivity|].
    intros key v H. apply assoc_In in H. cbn in H.
    repeat (destruct H as [H|H];
            [injection H as _ <-; intros Hv; vm_compute in Hv;
             try contradiction; discriminate Hv|]).
    contradiction.
Qed.

Lemma C9_amort_factor_is_pool_factor_witness :
  (0 < wac pool3)%Q /\ 0 < wam pool3 /\
  exists rs,
    calculate_mortgage_cash_flows_with_defaults pool3 = Ok rs /\
    len rs = wam pool3 /\
    forall r, In r rs ->
      exists P,
        Performing_Balance r = Fin P /\
        assoc "Amort Factor" (items r)
          = Some (VFloat (fdiv (Fin P) (Fin (initial_balance pool3)))) /\
        (~ (initial_balance pool3 == 0)%Q ->
           Amort_Factor r = Fin (P / initial_balance pool3)).
Proof.
  split; [reflexivity|]. split; [reflexivity|].
  apply (proj1 C9_amort_factor_is_pool_factor pool3); reflexivity.
Defined.

(** C9 as stated fails in its second half: in the one-month pool with a
    prepayment rate of 1% the amortization factor of month 1 is 1, and the
    returned record holds 1 under ['Prepay Rate'] (and under ['Month']). *)
Lemma C9_counterexample :
  exists rs r af v w,
    calculate_mortgage_cash_flows_with_defaults pool1 = Ok rs /\
    nth_error rs 0 = Some r /\
    scheduled_factor pool1 1 = Some af /\
    af =f= Fin 1 /\
    assoc "Prepay Rate" (items r) = Some v /\ value_is v af /\
    assoc "Month" (items r) = Some w /\ value_is w af.
Proof.
  eexists _, _, _, _, _.
  split; [vm_compute; reflexivity|].
  split; [reflexivity|].
  split; [vm_compute; reflexivity|].
  split; [reflexivity|].
  split; [reflexivity|]. split; [reflexivity|].
  split; reflexivity.
Qed.

(** ** Finite runs *)

Lemma month_step_all (p : params) (sch_am : list flt)
    (s : loop_state) (m : Z) (s' : loop_state) :
  month_step p sch_am s m = Ok s' ->
  exists r adb af,
    month_facts p sch_am s m s' r adb af /\ month_interest p s m r.
Proof.
  intros H. step_inv H adb af pf.
  eexists _, adb, (fst af). split.
  - constructor; cbn; try reflexivity; try assumption.
    exists (snd af). now destruct af.
  - constructor; reflexivity.
Qed.

Lemma wf_step (p : params) (m : Z) (s s' : loop_state) :
  (0 < wac p)%Q -> 0 < wam p -> 1 <= m <= wam p ->
  wf p (m - 1) s ->
  month_step p (curve (wac p / 1200) (wam p)) s m = Ok s' ->
  wf p m s'.
Proof.
  intros Hc Hw Hm Hwf Hstep.
  destruct (month_step_ok p Hc Hw m s Hm Hwf) as (s'' & E & Hwf').
  rewrite Hstep in E. now injection E as <-.
Qed.

(** The scan adds up finite terms: a maturing entry read with P&I advanced
    divides by a value of the curve before its end. *)
Lemma scan_queue_finite (p : params) (m : Z) (q : list default) :
  (0 < wac p)%Q -> 0 < wam p -> 1 <= m <= wam p ->
  lag_or_no_advance p ->
  (forall d, In d q ->
     finite (amount d) /\
     exists o, 1 <= o <= m /\ o <= wam p - months_to_liquidation p /\
               recovery_month d = o + months_to_liquidation p) ->
  exists A, scan_queue p (curve (wac p / 1200) (wam p)) m q = Ok (Fin A).
Proof.
  intros Hc Hw Hm Hlag. pose proof (c_pos p Hc) as Hc'.
  unfold scan_queue. generalize 0%Q as acc.
  induction q as [|d q IH]; intros acc Hq; cbn [foldM].
  - now exists acc.
  - assert (exists acc', adb_add p (curve (wac p / 1200) (wam p)) m
                           (Fin acc) d = Ok (Fin acc')) as (acc' & E).
    { destruct (Hq d (or_introl eq_refl)) as ((a & Ea) & o & Ho & Ho' & Eo).
      unfold adb_add. destruct (recovery_month d =? m) eqn:Em; [|eauto].
      apply Z.eqb_eq in Em. rewrite Ea.
      destruct (pi_advanced p) eqn:Epi; cbn [andb]; [|cbn; eauto].
      destruct ((m >? 0) && (m - 1 <? len (curve (wac p / 1200) (wam p))));
        [|cbn; eauto].
      assert (Hlag' : months_to_liquidation p <> 0)
        by (destruct Hlag as [H|H]; [exact H | congruence]).
      replace (m - months_to_liquidation p) with o by lia.
      rewrite !curve_get by lia. cbn [bind fdiv].
      rewrite Qzero_false.
      - cbn. eauto.
      - pose proof (sch_q_pos _ _ Hc' Hw o ltac:(lia)). lra. }
    rewrite E. cbn [bind]. apply IH.
    intros d' Hd'. apply Hq. now right.
Qed.

Lemma fgt_fin_true (x : Q) :
  fgt (Fin x) (Fin 0) = true -> (0 < x)%Q.
Proof.
  cbn. destruct (Qle_bool x 0) eqn:E; [discriminate|]. intros _.
  destruct (Qlt_le_dec 0 x) as [H|H]; [exact H|].
  apply Qle_bool_iff in H. congruence.
Qed.

Lemma fgt_fin_false (x : Q) :
  fgt (Fin x) (Fin 0) = false -> (x <= 0)%Q.
Proof.
  cbn. destruct (Qle_bool x 0) eqn:E; [|discriminate]. intros _.
  now apply Qle_bool_iff.
Qed.

(** One month of a finite run. *)
Lemma month_fin (p : params) (m : Z) (s s' : loop_state) (r : row)
    (adb af : flt) (P F : Q) :
  (0 < wac p)%Q -> 0 < wam p -> 1 <= m <= wam p ->
  lag_or_no_advance p ->
  wf p (m - 1) s -> wf p m s' -> fin_state s P F ->
  month_facts p (curve (wac p / 1200) (wam p)) s m s' r adb af ->
  month_interest p s m r ->
  exists A P' F',
    fin_facts p m P F A r /\
    Performing_Balance r = Fin P' /\ In_Foreclosure r = Fin F' /\
    fin_state s' P' F'.
Proof.
  intros Hc Hw Hm Hlag Hwf Hwf' [HP HF HQ] MF MI.
  pose proof (month_facts_af p s s' m r adb af Hc Hw Hm MF) as Eaf.
  pose proof (mf_new_def _ _ _ _ _ _ _ _ MF) as End.
  rewrite HP in End. cbn [fmul] in End.
  assert (HQ' : forall d, In d (default_queue s') -> finite (amount d)).
  { intros d. rewrite (mf_queue _ _ _ _ _ _ _ _ MF).
    destruct (fgt (New_Defaults r) (Fin 0)); [|apply HQ].
    intros Hd. apply in_app_or in Hd. destruct Hd as [Hd|[<-|[]]].
    - now apply HQ.
    - cbn. rewrite End. eexists; reflexivity. }
  destruct (scan_queue_finite p m (default_queue s') Hc Hw Hm Hlag)
    as (A & EA).
  { intros d Hd. split; [now apply HQ'|]. apply (wf_queue _ _ _ Hwf' d Hd). }
  rewrite (mf_scan _ _ _ _ _ _ _ _ MF) in EA. injection EA as ->.
  pose proof (mf_vol _ _ _ _ _ _ _ _ MF) as Evol.
  pose proof (mf_act _ _ _ _ _ _ _ _ MF) as Eact.
  pose proof (mf_exp _ _ _ _ _ _ _ _ MF) as Eexp.
  pose proof (mf_amdef _ _ _ _ _ _ _ _ MF) as Eam.
  pose proof (mf_fcl _ _ _ _ _ _ _ _ MF) as Efcl.
  pose proof (mf_perf _ _ _ _ _ _ _ _ MF) as Epb.
  rewrite HP, Eaf in Evol. rewrite HP, End, Eaf in Eact.
  rewrite HP, HF, Eaf in Eexp.
  assert (Eam' : Amort_From_Defaults r = Fin (am_def_q p m P F A)).
  { rewrite Eam, End, HF, Eaf. unfold am_def_q.
    now destruct (pi_advanced p). }
  rewrite Eam', End, HF in Efcl.
  rewrite HP, End, Evol, Eact in Epb.
  pose proof (mi_exp_int _ _ _ _ MI) as Eei.
  pose proof (mi_lost_int _ _ _ _ MI) as Eli.
  pose proof (mi_act_int _ _ _ _ MI) as Eai.
  rewrite HP, HF in Eei. rewrite End, HF in Eli. rewrite Eei, Eli in Eai.
  cbn [fmul fsub fadd] in Evol, Eact, Eexp, Efcl, Epb, Eei, Eli, Eai.
  eexists A, _, _. split; [|split; [exact Epb|split; [exact Efcl|]]].
  - constructor; try assumption.
    + apply (mf_month _ _ _ _ _ _ _ _ MF).
    + apply (mf_loss _ _ _ _ _ _ _ _ MF).
    + apply (mf_recov _ _ _ _ _ _ _ _ MF).
    + apply (mf_inrec _ _ _ _ _ _ _ _ MF).
    + apply (month_facts_pool _ _ _ _ _ _ _ _ MF).
  - constructor.
    + now rewrite (mf_perf' _ _ _ _ _ _ _ _ MF).
    + now rewrite (mf_fcl' _ _ _ _ _ _ _ _ MF).
    + exact HQ'.
Qed.

Lemma foreclosure_app (rs l : list row) (m : Z) :
  0 <= m <= len rs -> foreclosure (rs ++ l) m = foreclosure rs m.
Proof.
  intros Hm. unfold foreclosure. destruct (m =? 0) eqn:E; [reflexivity|].
  apply Z.eqb_neq in E.
  rewrite nth_error_app1 by (unfold len in Hm; lia). reflexivity.
Qed.

Lemma nth_error_last (rs : list row) (r : row) (m : Z) :
  len rs = m - 1 -> nth_error (rs ++ [r]) (Z.to_nat (m - 1)) = Some r.
Proof.
  intros Hm. rewrite nth_error_app2 by (unfold len in Hm; lia).
  replace (Z.to_nat (m - 1) - List.length rs)%nat with 0%nat
    by (unfold len in Hm; lia).
  reflexivity.
Qed.

Lemma foreclosure_display (rs : list row) (m : Z) :
  foreclosure (display_rows rs) m = foreclosure rs m.
Proof.
  unfold foreclosure. destruct (m =? 0); [reflexivity|].
  rewrite nth_error_display. now destruct (nth_error rs _).
Qed.

(** With a positive coupon and term, and a liquidation lag or no P&I
    advance, the loop runs on finite values throughout. *)
Lemma engine_finite (p : params) :
  (0 < wac p)%Q -> 0 < wam p -> lag_or_no_advance p ->
  exists s P F,
    engine p = Ok s /\ wf p (wam p) s /\
    calculate_mortgage_cash_flows_with_defaults p
      = Ok (display_rows (results s)) /\
    fin_state s P F /\
    performing p (results s) (wam p) = Some (Fin P) /\
    foreclosure (results s) (wam p) = Some (Fin F) /\
    fin_chain p (results s) (wam p).
Proof.
  intros Hc Hw Hlag.
  destruct (calculate_inv p
    (fun m s =>
       exists P F, fin_state s P F /\
         performing p (results s) m = Some (Fin P) /\
         foreclosure (results s) m = Some (Fin F) /\
         fin_chain p (results s) m)
    Hc Hw) as (s & Es & Hwf & (P & F & HS & HP & HF & HC) & E).
  - exists (initial_balance p), 0%Q. split; [|split; [|split]].
    + constructor; [reflexivity | reflexivity | intros d []].
    + reflexivity.
    + reflexivity.
    + intros m Hm. lia.
  - intros m s s' Hm Hwf (P & F & HS & HP & HF & HC) Hstep.
    pose proof (wf_step p m s s' Hc Hw Hm Hwf Hstep) as Hwf'.
    destruct (month_step_all _ _ _ _ _ Hstep) as (r & adb & af & MF & MI).
    destruct (month_fin p m s s' r adb af P F Hc Hw Hm Hlag Hwf Hwf' HS MF MI)
      as (A & P' & F' & FF & EP' & EF' & HS').
    pose proof (wf_rows _ _ _ Hwf) as Hlen.
    rewrite (mf_results _ _ _ _ _ _ _ _ MF).
    exists P', F'. split; [exact HS'|]. split; [|split].
    + unfold performing.
      replace (m =? 0) with false by (symmetry; apply Z.eqb_neq; lia).
      rewrite nth_error_last by exact Hlen. cbn. now rewrite EP'.
    + unfold foreclosure.
      replace (m =? 0) with false by (symmetry; apply Z.eqb_neq; lia).
      rewrite nth_error_last by exact Hlen. cbn. now rewrite EF'.
    + intros k Hk. destruct (Z.eq_dec k m) as [->|Hne].
      * exists r, P, F, A. split; [apply nth_error_last, Hlen|].
        split; [rewrite performing_app by lia; exact HP|].
        split; [rewrite foreclosure_app by lia; exact HF|exact FF].
      * destruct (HC k ltac:(lia))
          as (r0 & P0 & F0 & A0 & Hr & HP0 & HF0 & FF0).
        exists r0, P0, F0, A0.
        split; [rewrite nth_error_app1;
                [exact Hr | unfold len in Hlen; lia]|].
        split; [rewrite performing_app by lia; exact HP0|].
        split; [rewrite foreclosure_app by lia; exact HF0|exact FF0].
  - exists s, P, F. repeat (split; [assumption|]). assumption.
Qed.

(** Every record of a chain is the record of some month. *)
Lemma fin_chain_In (p : params) (rs : list row) (r : row) :
  fin_chain p rs (len rs) -> In r rs ->
  exists m P F A,
    1 <= m <= len rs /\
    performing p rs (m - 1) = Some (Fin P) /\
    foreclosure rs (m - 1) = Some (Fin F) /\
    fin_facts p m P F A r.
Proof.
  intros HC Hr. apply In_nth_error in Hr. destruct Hr as (k & Hk).
  assert (Hlt : (k < List.length rs)%nat) by (apply nth_error_Some; congruence).
  destruct (HC (Z.of_nat k + 1) ltac:(unfold len; lia))
    as (r0 & P & F & A & Hr0 & HP & HF & FF).
  replace (Z.to_nat (Z.of_nat k + 1 - 1)) with k in Hr0 by lia.
  rewrite Hk in Hr0. injection Hr0 as <-.
  exists (Z.of_nat k + 1), P, F, A.
  split; [unfold len; lia|].
  split; [exact HP|]. split; [exact HF|exact FF].
Qed.

(** The rate fields and the new defaults of every record of the loop. *)
Lemma engine_rates (p : params) :
  (0 < wac p)%Q -> 0 < wam p ->
  exists s,
    engine p = Ok s /\ wf p (wam p) s /\
    calculate_mortgage_cash_flows_with_defaults p
      = Ok (display_rows (results s)) /\
    forall r, In r (results s) ->
      1 <= Month r <= wam p /\
      Default_Rate r = Fin (month_mdr p (Month r)) /\
      Prepay_Rate r = Fin (prepay_rate_smm p / 100) /\
      exists P, New_Defaults r = Fin (P * month_mdr p (Month r)).
Proof.
  intros Hc Hw.
  destruct (calculate_inv p
    (fun _ s => forall r, In r (results s) ->
       1 <= Month r <= wam p /\
       Default_Rate r = Fin (month_mdr p (Month r)) /\
       Prepay_Rate r = Fin (prepay_rate_smm p / 100) /\
       exists P, New_Defaults r = Fin (P * month_mdr p (Month r)))
    Hc Hw) as (s & Es & Hwf & Hrows & E).
  - intros r [].
  - intros m s s' Hm Hwf Hrows Hstep.
    destruct (month_step_all _ _ _ _ _ Hstep) as (r & adb & af & MF & MI).
    intros r' Hr'. rewrite (mf_results _ _ _ _ _ _ _ _ MF) in Hr'.
    apply in_app_or in Hr'. destruct Hr' as [Hr'|[<-|[]]]; [auto|].
    rewrite (mf_month _ _ _ _ _ _ _ _ MF).
    split; [exact Hm|].
    split; [apply (mi_default_rate _ _ _ _ MI)|].
    split; [apply (mi_prepay_rate _ _ _ _ MI)|].
    destruct (wf_perf _ _ _ Hwf) as (P & HP). exists P.
    rewrite (mf_new_def _ _ _ _ _ _ _ _ MF), HP. reflexivity.
  - exists s. auto.
Qed.

(** ** Interest *)

(** X3. In a run with a liquidation lag or without P&I advance (positive
    coupon and term), the record of each month has, on the performing
    balance [P] and the foreclosure balance [F] the month before left and
    on its own new defaults [nd]:
    expected interest [(P + F) * (wac / 1200)], interest lost
    [(nd + F) * (wac / 1200)], and as actual interest the first less the
    second, the expressions of lines 124-130. *)
Theorem X3_interest (p : params) :
  (0 < wac p)%Q -> 0 < wam p -> lag_or_no_advance p ->
  exists s,
    engine p = Ok s /\
    len (results s) = wam p /\
    forall m, 1 <= m <= wam p ->
      exists r P F nd,
        nth_error (results s) (Z.to_nat (m - 1)) = Some r /\
        performing p (results s) (m - 1) = Some (Fin P) /\
        foreclosure (results s) (m - 1) = Some (Fin F) /\
        New_Defaults r = Fin nd /\
        Expected_Interest r = Fin ((P + F) * (wac p / 1200)) /\
        Interest_Lost r = Fin ((nd + F) * (wac p / 1200)) /\
        Actual_Interest r
          = Fin ((P + F) * (wac p / 1200) - (nd + F) * (wac p / 1200)).
Proof.
  intros Hc Hw Hlag.
  destruct (engine_finite p Hc Hw Hlag)
    as (s & P0 & F0 & Es & Hwf & _ & _ & _ & _ & HC).
  exists s. split; [exact Es|]. split; [apply (wf_rows _ _ _ Hwf)|].
  intros m Hm. destruct (HC m Hm) as (r & P & F & A & Hr & HP & HF & FF).
  exists r, P, F, (P * month_mdr p m)%Q.
  split; [exact Hr|]. split; [exact HP|]. split; [exact HF|].
  split; [apply (ff_new_def _ _ _ _ _ _ FF)|].
  split; [apply (ff_exp_int _ _ _ _ _ _ FF)|].
  split; [apply (ff_lost_int _ _ _ _ _ _ FF)|].
  apply (ff_act_int _ _ _ _ _ _ FF).
Qed.

Lemma X3_interest_witness :
  (0 < wac pool_two)%Q /\ 0 < wam pool_two /\ lag_or_no_advance pool_two /\
  exists s,
    engine pool_two = Ok s /\
    len (results s) = wam pool_two /\
    forall m, 1 <= m <= wam pool_two ->
      exists r P F nd,
        nth_error (results s) (Z.to_nat (m - 1)) = Some r /\
        performing pool_two (results s) (m - 1) = Some (Fin P) /\
        foreclosure (results s) (m - 1) = Some (Fin F) /\
        New_Defaults r = Fin nd /\
        Expected_Interest r = Fin ((P + F) * (wac pool_two / 1200)) /\
        Interest_Lost r = Fin ((nd + F) * (wac pool_two / 1200)) /\
        Actual_Interest r
          = Fin ((P + F) * (wac pool_two / 1200)
                 - (nd + F) * (wac pool_two / 1200)).
Proof.
  split; [reflexivity|]. split; [reflexivity|]. split; [left; discriminate|].
  apply (X3_interest pool_two);
    [reflexivity | reflexivity | left; discriminate].
Defined.

(** X16. The script's pool (100,000,000 at 8% over 360 months, 1% SMM,
    1% MDR, 12 months to liquidation, severity 20%, P&I advanced): the
    call returns 360 records; the first is of month 1, its new defaults
    are 100,000,000 * (1 / 100), which is 1,000,000, and its expected
    interest is (100,000,000 + 0) * (8 / 1200), within 0.01 of
    666,666.67. *)
Theorem X16_cash_flow_a_month_1 :
  exists rs r,
    calculate_mortgage_cash_flows_with_defaults pool_cash_flow_a = Ok rs /\
    len rs = 360 /\
    nth_error rs 0 = Some r /\ Month r = 1 /\
    New_Defaults r = Fin (100000000 * (1 / 100)) /\
    New_Defaults r =f= Fin 1000000 /\
    Expected_Interest r = Fin ((100000000 + 0) * (8 / 1200)) /\
    exists ei, Expected_Interest r = Fin ei /\
      (66666666 # 100 <= ei <= 66666668 # 100)%Q.
Proof.
  destruct (engine_finite pool_cash_flow_a)
    as (s & P0 & F0 & Es & Hwf & E & _ & _ & _ & HC);
    [reflexivity | reflexivity | left; discriminate |].
  destruct (HC 1) as (r & P & F & A & Hr & HP & HF & FF); [cbn; lia|].
  change (Z.to_nat (1 - 1)) with 0%nat in Hr.
  cbn in HP, HF. injection HP as <-. injection HF as <-.
  pose proof (ff_new_def _ _ _ _ _ _ FF) as End.
  pose proof (ff_exp_int _ _ _ _ _ _ FF) as Eei.
  pose proof (ff_month _ _ _ _ _ _ FF) as Em.
  exists (display_rows (results s)),
    (to_display (has_recovery (results s)) r).
  split; [exact E|].
  split; [rewrite len_display; apply (wf_rows _ _ _ Hwf)|].
  split; [rewrite nth_error_display; now rewrite Hr|].
  cbn [to_display Month New_Defaults Expected_Interest].
  split; [exact Em|].
  split; [exact End|].
  split; [rewrite End; reflexivity|].
  split; [exact Eei|].
  eexists. split; [exact Eei|].
  split; unfold Qle; cbn; lia.
Qed.

(** ** Principal loss and principal recovery *)

(** Lines 133 and 136 on a finite amortized default balance [A]. *)
Lemma loss_recovery_cases (sev A : Q) (loss recov : flt) :
  loss = (if fgt (Fin A) (Fin 0)
          then py_min (Fin (A * (sev / 100))) (Fin A) else Fin 0) ->
  recov = py_max (fsub (Fin A) loss) (Fin 0) ->
  ((A <= 0)%Q -> loss = Fin 0 /\ recov =f= Fin 0) /\
  ((0 < A)%Q -> (0 <= sev <= 100)%Q ->
     loss = Fin (A * (sev / 100)) /\
     recov = Fin (A - A * (sev / 100)) /\
     (0 <= A * (sev / 100) <= A)%Q).
Proof.
  intros -> ->. split.
  - intros HA. rewrite fgt_zero_false by exact HA. split; [reflexivity|].
    cbn [fsub]. unfold py_max. cbn [fgt].
    destruct (Qle_bool 0 (A - 0)) eqn:E; cbn [negb feq]; [|reflexivity].
    apply Qle_bool_iff in E. lra.
  - intros HA [H0 H1]. cbn [fgt]. rewrite Qpos_true by exact HA.
    assert (Hs0 : (0 <= sev / 100)%Q)
      by (apply Qle_shift_div_l; [reflexivity|lra]).
    assert (Hs1 : (sev / 100 <= 1)%Q)
      by (apply Qle_shift_div_r; [reflexivity|lra]).
    assert (Hle : (0 <= A * (sev / 100) <= A)%Q) by (split; nra).
    unfold py_min, flt_lt. cbn [fgt].
    replace (Qle_bool (A * (sev / 100)) A) with true
      by (symmetry; apply Qle_bool_iff; apply Hle).
    cbn [negb fsub]. unfold py_max. cbn [fgt].
    replace (Qle_bool 0 (A - A * (sev / 100))) with true
      by (symmetry; apply Qle_bool_iff; lra).
    cbn [negb]. auto.
Qed.

(** X4. In a run with a liquidation lag or without P&I advance (positive
    coupon and term), a record of the loop without a recovered amount has
    principal loss and principal recovery 0.  A record with the recovered
    amount [x] has [x > 0], and with a loss severity in [0,100] its
    principal loss is [x * (loss_severity / 100)], which lies in [0, x],
    and its principal recovery is [x] less that loss: the [min] of line
    133 and the [max] of line 136 keep their first argument. *)
Theorem X4_loss_and_recovery (p : params) :
  (0 < wac p)%Q -> 0 < wam p -> lag_or_no_advance p ->
  exists s,
    engine p = Ok s /\
    len (results s) = wam p /\
    forall r, In r (results s) ->
      (In_Recovery_Month r = None ->
         Principal_Loss r = Fin 0 /\ Principal_Recovery r =f= Fin 0) /\
      (forall a, In_Recovery_Month r = Some a ->
         exists x,
           a = Fin x /\ (0 < x)%Q /\
           ((0 <= loss_severity p <= 100)%Q ->
              Principal_Loss r = Fin (x * (loss_severity p / 100)) /\
              Principal_Recovery r
                = Fin (x - x * (loss_severity p / 100)) /\
              (0 <= x * (loss_severity p / 100) <= x)%Q)).
Proof.
  intros Hc Hw Hlag.
  destruct (engine_finite p Hc Hw Hlag)
    as (s & P & F & Es & Hwf & _ & _ & _ & _ & HC).
  pose proof (wf_rows _ _ _ Hwf) as Hlen.
  exists s. split; [exact Es|]. split; [exact Hlen|].
  intros r Hr. rewrite <- Hlen in HC.
  destruct (fin_chain_In p (results s) r HC Hr)
    as (m & P0 & F0 & A & _ & _ & _ & FF).
  destruct (loss_recovery_cases (loss_severity p) A _ _
              (ff_loss _ _ _ _ _ _ FF) (ff_recov _ _ _ _ _ _ FF))
    as [Hnone Hsome].
  pose proof (ff_inrec _ _ _ _ _ _ FF) as Ei.
  destruct (fgt (Fin A) (Fin 0)) eqn:Eg.
  - apply fgt_fin_true in Eg. split.
    + rewrite Ei. discriminate.
    + intros a Ha. rewrite Ei in Ha. injection Ha as <-.
      exists A. split; [reflexivity|]. split; [exact Eg|].
      intros Hsev. apply (Hsome Eg Hsev).
  - apply fgt_fin_false in Eg. split.
    + intros _. now apply Hnone.
    + intros a Ha. rewrite Ei in Ha. discriminate Ha.
Qed.

Lemma X4_loss_and_recovery_witness :
  (0 < wac pool_two)%Q /\ 0 < wam pool_two /\ lag_or_no_advance pool_two /\
  exists s,
    engine pool_two = Ok s /\
    len (results s) = wam pool_two /\
    forall r, In r (results s) ->
      (In_Recovery_Month r = None ->
         Principal_Loss r = Fin 0 /\ Principal_Recovery r =f= Fin 0) /\
      (forall a, In_Recovery_Month r = Some a ->
         exists x,
           a = Fin x /\ (0 < x)%Q /\
           ((0 <= loss_severity pool_two <= 100)%Q ->
              Principal_Loss r = Fin (x * (loss_severity pool_two / 100)) /\
              Principal_Recovery r
                = Fin (x - x * (loss_severity pool_two / 100)) /\
              (0 <= x * (loss_severity pool_two / 100) <= x)%Q)).
Proof.
  split; [reflexivity|]. split; [reflexivity|]. split; [left; discriminate|].
  apply (X4_loss_and_recovery pool_two);
    [reflexivity | reflexivity | left; discriminate].
Defined.

(** X5. With P&I advanced and a liquidation lag, the foreclosure balance
    after the last month is 0: the last amortization factor is 1. *)
Theorem X5_foreclosure_ends_at_zero (p : params) :
  (0 < wac p)%Q -> 0 < wam p ->
  pi_advanced p = true -> months_to_liquidation p <> 0 ->
  exists rs last,
    calculate_mortgage_cash_flows_with_defaults p = Ok rs /\
    foreclosure rs (wam p) = Some last /\
    last =f= Fin 0.
Proof.
  intros Hc Hw Hpi Hlag.
  destruct (engine_finite p Hc Hw (or_introl Hlag))
    as (s & P0 & F0 & _ & _ & E & _ & _ & _ & HC).
  destruct (HC (wam p) ltac:(lia)) as (r & P & F & A & Hr & _ & _ & FF).
  exists (display_rows (results s)), (In_Foreclosure r).
  split; [exact E|]. split.
  - rewrite foreclosure_display. unfold foreclosure.
    replace (wam p =? 0) with false by (symmetry; apply Z.eqb_neq; lia).
    now rewrite Hr.
  - rewrite (ff_fcl _ _ _ _ _ _ FF). unfold am_def_q. rewrite Hpi.
    cbn [feq]. unfold af_of.
    rewrite (af_q_last (coupon p) (wam p)). ring.
Qed.

Lemma X5_foreclosure_ends_at_zero_witness :
  (0 < wac pool_two)%Q /\ 0 < wam pool_two /\
  pi_advanced pool_two = true /\ months_to_liquidation pool_two <> 0 /\
  exists rs last,
    calculate_mortgage_cash_flows_with_defaults pool_two = Ok rs /\
    foreclosure rs (wam pool_two) = Some last /\
    last =f= Fin 0.
Proof.
  split; [reflexivity|]. split; [reflexivity|].
  split; [reflexivity|]. split; [discriminate|].
  apply (X5_foreclosure_ends_at_zero pool_two);
    [reflexivity | reflexivity | reflexivity | discriminate].
Defined.

(** ** The rate columns *)

(** X7. In the months after [wam - months_to_liquidation] the default
    rate is switched off: the record's 'Default Rate' and 'New Defaults'
    are 0, whatever default rate was passed in. *)
Theorem X7_no_new_defaults_near_maturity (p : params) :
  (0 < wac p)%Q -> 0 < wam p ->
  exists rs,
    calculate_mortgage_cash_flows_with_defaults p = Ok rs /\
    len rs = wam p /\
    forall r, In r rs ->
      Month r > wam p - months_to_liquidation p ->
      Default_Rate r =f= Fin 0 /\ New_Defaults r =f= Fin 0.
Proof.
  intros Hc Hw.
  destruct (engine_rates p Hc Hw) as (s & _ & Hwf & E & HR).
  exists (display_rows (results s)). split; [exact E|].
  split; [rewrite len_display; apply (wf_rows _ _ _ Hwf)|].
  intros r Hr. apply in_display in Hr. destruct Hr as (r0 & Hr0 & ->).
  destruct (HR r0 Hr0) as (_ & Edr & _ & P & End).
  cbn [to_display Default_Rate New_Defaults Month]. intros Hm.
  rewrite Edr, End, month_mdr_off by exact Hm.
  cbn [fmul feq]. split; ring.
Qed.

Lemma X7_no_new_defaults_near_maturity_witness :
  (0 < wac pool_two)%Q /\ 0 < wam pool_two /\
  exists rs,
    calculate_mortgage_cash_flows_with_defaults pool_two = Ok rs /\
    len rs = wam pool_two /\
    forall r, In r rs ->
      Month r > wam pool_two - months_to_liquidation pool_two ->
      Default_Rate r =f= Fin 0 /\ New_Defaults r =f= Fin 0.
Proof.
  split; [reflexivity|]. split; [reflexivity|].
  apply (X7_no_new_defaults_near_maturity pool_two); reflexivity.
Defined.

(** ** No defaults *)

(** X8. With a default rate of 0 no entry is ever queued, and in every
    record new defaults, the foreclosure balance, the amortization from
    defaults and the interest lost are 0, nothing is recovered or lost,
    and the actual interest is the expected interest. *)
Theorem X8_zero_default_rate (p : params) :
  (0 < wac p)%Q -> 0 < wam p -> (default_rate_mdr p == 0)%Q ->
  exists s rs,
    engine p = Ok s /\
    calculate_mortgage_cash_flows_with_defaults p = Ok rs /\
    default_queue s = [] /\
    forall r, In r rs ->
      New_Defaults r =f= Fin 0 /\ In_Foreclosure r =f= Fin 0 /\
      Amort_From_Defaults r =f= Fin 0 /\ Interest_Lost r =f= Fin 0 /\
      In_Recovery_Month r = None /\
      Principal_Loss r = Fin 0 /\ Principal_Recovery r = Fin 0 /\
      Actual_Interest r =f= Expected_Interest r.
Proof.
  intros Hc Hw Hmdr.
  destruct (calculate_inv p
    (fun m s =>
       default_queue s = [] /\
       (exists f, fcl_prev s = Fin f /\ (f == 0)%Q) /\
       forall r, In r (results s) ->
         New_Defaults r =f= Fin 0 /\ In_Foreclosure r =f= Fin 0 /\
         Amort_From_Defaults r =f= Fin 0 /\ Interest_Lost r =f= Fin 0 /\
         In_Recovery_Month r = None /\
         Principal_Loss r = Fin 0 /\ Principal_Recovery r = Fin 0 /\
         Actual_Interest r =f= Expected_Interest r)
    Hc Hw) as (s & Es & Hwf & (Hq & _ & Hrows) & E).
  - split; [reflexivity|]. split; [exists 0%Q; split; reflexivity|].
    intros r [].
  - intros m s s' Hm Hwf (Hq & (f & Ef & Hf) & Hrows) Hstep.
    destruct (month_step_all _ _ _ _ _ Hstep) as (r & adb & af & MF & MI).
    destruct (wf_perf _ _ _ Hwf) as (P & HP).
    pose proof (month_mdr_zero p m Hmdr) as Hmdr'.
    pose proof (month_facts_af p s s' m r adb af Hc Hw Hm MF) as Eaf.
    set (a := af_q (wac p / 1200) (wam p) m) in *.
    pose proof (mf_new_def _ _ _ _ _ _ _ _ MF) as End.
    rewrite HP in End. cbn [fmul] in End.
    pose proof (mf_queue _ _ _ _ _ _ _ _ MF) as Eq.
    rewrite End, fgt_zero_false, Hq in Eq by (rewrite Hmdr'; lra).
    pose proof (mf_scan _ _ _ _ _ _ _ _ MF) as Escan.
    rewrite Eq in Escan. cbn in Escan. injection Escan as <-.
    pose proof (mf_amdef _ _ _ _ _ _ _ _ MF) as Eam.
    pose proof (mf_fcl _ _ _ _ _ _ _ _ MF) as Efcl.
    pose proof (mf_loss _ _ _ _ _ _ _ _ MF) as El. cbn in El.
    pose proof (mf_recov _ _ _ _ _ _ _ _ MF) as Er. rewrite El in Er.
    pose proof (mf_inrec _ _ _ _ _ _ _ _ MF) as Ei. cbn in Ei.
    pose proof (mi_exp_int _ _ _ _ MI) as Eei.
    pose proof (mi_lost_int _ _ _ _ MI) as Eli.
    pose proof (mi_act_int _ _ _ _ MI) as Eai.
    rewrite HP, Ef in Eei. rewrite End, Ef in Eli. rewrite Eei, Eli in Eai.
    assert (Eam' : exists x, Amort_From_Defaults r = Fin x /\ (x == 0)%Q).
    { rewrite Eam, End, Ef, Eaf.
      destruct (pi_advanced p); cbn [fmul fsub fadd];
        (eexists; split; [reflexivity|]);
        [rewrite Hf, Hmdr'; ring | reflexivity]. }
    destruct Eam' as (x & Ex & Hx).
    rewrite End, Ef, Ex in Efcl.
    cbn [fmul fsub fadd] in Efcl, Eei, Eli, Eai.
    split; [exact Eq|]. split.
    + rewrite (mf_fcl' _ _ _ _ _ _ _ _ MF), Efcl.
      eexists; split; [reflexivity|]. rewrite Hf, Hmdr', Hx. ring.
    + intros r' Hr'. rewrite (mf_results _ _ _ _ _ _ _ _ MF) in Hr'.
      apply in_app_or in Hr'. destruct Hr' as [Hr'|[<-|[]]]; [auto|].
      rewrite End, Efcl, Ex, Eli, Eai, Eei. cbn [feq].
      repeat split; try assumption;
        rewrite ?Hf, ?Hmdr', ?Hx; ring.
  - exists s, (display_rows (results s)).
    split; [exact Es|]. split; [exact E|]. split; [exact Hq|].
    intros r Hr. apply in_display in Hr. destruct Hr as (r0 & Hr0 & ->).
    rewrite has_recovery_none by (intros r1 Hr1; apply (Hrows r1 Hr1)).
    destruct (Hrows r0 Hr0) as (H1 & H2 & H3 & H4 & H5 & H6).
    cbn [to_display New_Defaults In_Foreclosure Amort_From_Defaults
         Interest_Lost In_Recovery_Month Principal_Loss Principal_Recovery
         Actual_Interest Expected_Interest].
    rewrite H5. auto 10.
Qed.

Lemma X8_zero_default_rate_witness :
  (0 < wac pool_quiet)%Q /\ 0 < wam pool_quiet /\
  (default_rate_mdr pool_quiet == 0)%Q /\
  exists s rs,
    engine pool_quiet = Ok s /\
    calculate_mortgage_cash_flows_with_defaults pool_quiet = Ok rs /\
    default_queue s = [] /\
    forall r, In r rs ->
      New_Defaults r =f= Fin 0 /\ In_Foreclosure r =f= Fin 0 /\
      Amort_From_Defaults r =f= Fin 0 /\ Interest_Lost r =f= Fin 0 /\
      In_Recovery_Month r = None /\
      Principal_Loss r = Fin 0 /\ Principal_Recovery r = Fin 0 /\
      Actual_Interest r =f= Expected_Interest r.
Proof.
  split; [reflexivity|]. split; [reflexivity|]. split; [reflexivity|].
  apply (X8_zero_default_rate pool_quiet); reflexivity.
Defined.

(** ** Recoveries *)

Lemma py_range_NoDup (lo hi : Z) : NoDup (py_range lo hi).
Proof.
  unfold py_range. generalize (seq_NoDup (Z.to_nat (hi - lo)) 0).
  induction (seq 0 (Z.to_nat (hi - lo))) as [|k l IH]; intros H; cbn [map].
  - constructor.
  - inversion H as [|? ? Hk Hl]; subst. constructor; [|now apply IH].
    intros Hin. apply in_map_iff in Hin. destruct Hin as (k' & E & Hk').
    assert (k' = k) by lia. subst k'. contradiction.
Qed.

Lemma entries_of_app (p : params) (rs1 rs2 : list row) :
  entries_of p (rs1 ++ rs2) = entries_of p rs1 ++ entries_of p rs2.
Proof. unfold entries_of. apply flat_map_app. Qed.

(** Records of other months add nothing to the scan of month [m]. *)
Lemma scan_entries_none (p : params) (sch : list flt) (m : Z)
    (rs : list row) (acc : flt) :
  (forall r0, In r0 rs -> Month r0 + months_to_liquidation p <> m) ->
  foldM (adb_add p sch m) (entries_of p rs) acc = Ok acc.
Proof.
  induction rs as [|r0 rs IH]; intros H; [reflexivity|].
  change (r0 :: rs) with ([r0] ++ rs).
  rewrite entries_of_app, foldM_app.
  assert (E : foldM (adb_add p sch m) (entries_of p [r0]) acc = Ok acc).
  { unfold entries_of. cbn [flat_map].
    destruct (fgt (New_Defaults r0) (Fin 0)); [|reflexivity].
    cbn [app foldM]. unfold adb_add. cbn [recovery_month].
    replace (Month r0 + months_to_liquidation p =? m) with false;
      [reflexivity|].
    symmetry. apply Z.eqb_neq. apply H. now left. }
  rewrite E. cbn [bind]. apply IH. intros r1 Hr1. apply H. now right.
Qed.

(** When the months of the records are all different, the scan of month
    [m] sees the one record of month [m - months_to_liquidation]. *)
Lemma scan_entries_one (p : params) (sch : list flt) (m : Z)
    (rs : list row) (r0 : row) :
  NoDup (map Month rs) -> In r0 rs ->
  Month r0 + months_to_liquidation p = m ->
  scan_queue p sch m (entries_of p rs)
    = if fgt (New_Defaults r0) (Fin 0)
      then adb_add p sch m (Fin 0)
             {| amount := New_Defaults r0; recovery_month := m |}
      else Ok (Fin 0).
Proof.
  intros Hnd Hin Hm. apply in_split in Hin. destruct Hin as (l1 & l2 & ->).
  rewrite map_app in Hnd. cbn [map] in Hnd.
  pose proof (NoDup_remove_2 _ _ _ Hnd) as Hnot.
  assert (H1 : forall r1, In r1 l1 ->
                 Month r1 + months_to_liquidation p <> m).
  { intros r1 Hr1 E. apply Hnot. apply in_or_app. left.
    apply in_map_iff. exists r1. split; [lia|exact Hr1]. }
  assert (H2 : forall r1, In r1 l2 ->
                 Month r1 + months_to_liquidation p <> m).
  { intros r1 Hr1 E. apply Hnot. apply in_or_app. right.
    apply in_map_iff. exists r1. split; [lia|exact Hr1]. }
  unfold scan_queue.
  change (r0 :: l2) with ([r0] ++ l2).
  rewrite entries_of_app, foldM_app.
  rewrite (scan_entries_none p sch m l1 (Fin 0) H1). cbn [bind].
  rewrite entries_of_app, foldM_app.
  unfold entries_of at 1. cbn [flat_map]. rewrite app_nil_r.
  destruct (fgt (New_Defaults r0) (Fin 0)).
  - cbn [foldM]. rewrite Hm.
    destruct (adb_add p sch m (Fin 0) _) as [acc|e]; cbn [bind];
      [|reflexivity].
    apply (scan_entries_none p sch m l2 acc H2).
  - cbn [foldM bind]. apply (scan_entries_none p sch m l2 (Fin 0) H2).
Qed.

Lemma months_in_range (rs : list row) (m : Z) (r : row) :
  map Month rs = py_range 1 (m + 1) -> In r rs -> 1 <= Month r <= m.
Proof.
  intros Hmo Hr.
  assert (H : In (Month r) (py_range 1 (m + 1)))
    by (rewrite <- Hmo; now apply in_map).
  apply py_range_In in H. lia.
Qed.

(** The record of month [m] against the record of month
    [m - months_to_liquidation], on the scan result [adb] of month [m]. *)
Lemma recovery_of_scan (p : params) (m : Z) (r0 r : row) (adb : flt) :
  (0 < wac p)%Q -> 0 < wam p -> lag_or_no_advance p ->
  0 <= months_to_liquidation p ->
  1 <= Month r0 -> Month r0 + months_to_liquidation p = m -> m <= wam p ->
  Month r = m -> finite (New_Defaults r0) ->
  (if fgt (New_Defaults r0) (Fin 0)
   then adb_add p (curve (wac p / 1200) (wam p)) m (Fin 0)
          {| amount := New_Defaults r0; recovery_month := m |}
   else Ok (Fin 0)) = Ok adb ->
  In_Recovery_Month r = (if fgt adb (Fin 0) then Some adb else None) ->
  recovery_of p (curve (wac p / 1200) (wam p)) r0 r.
Proof.
  intros Hc Hw Hlag Hmtl H0 Hm Hmw Hr (nd & End) Hscan Hin.
  pose proof (c_pos p Hc) as Hc'.
  exists nd. split; [exact End|].
  rewrite End in Hscan. destruct (fgt (Fin nd) (Fin 0)) eqn:Eg.
  - unfold adb_add in Hscan. cbn [recovery_month amount] in Hscan.
    rewrite Z.eqb_refl in Hscan.
    destruct (pi_advanced p) eqn:Epi; cbn [andb] in Hscan.
    + assert (Hlag' : 1 <= months_to_liquidation p)
        by (destruct Hlag as [H|H]; [lia | congruence]).
      rewrite curve_len in Hscan by lia.
      replace (m >? 0) with true in Hscan by (symmetry; apply Z.gtb_lt; lia).
      replace (m - 1 <? wam p + 1) with true in Hscan
        by (symmetry; apply Z.ltb_lt; lia).
      cbn [andb] in Hscan.
      replace (m - months_to_liquidation p) with (Month r0) in Hscan by lia.
      rewrite !curve_get in Hscan by lia. cbn [bind fdiv] in Hscan.
      pose proof (sch_q_pos _ _ Hc' Hw (Month r0) ltac:(lia)) as Hb.
      pose proof (sch_q_pos _ _ Hc' Hw (m - 1) ltac:(lia)) as Ha.
      rewrite Qzero_false in Hscan by lra.
      cbn [fmul fadd] in Hscan.
      eexists. split; [rewrite Hin; injection Hscan as <-; reflexivity|].
      eexists _, _. rewrite Hr.
      split; [apply curve_get; lia|]. split; [apply curve_get; lia|].
      split; [exact Ha|]. split; [exact Hb|reflexivity].
    + exists (0 + nd)%Q.
      destruct ((m >? 0) && (m - 1 <? len (curve (wac p / 1200) (wam p))));
        cbn [fadd] in Hscan; injection Hscan as <-;
        (split; [exact Hin|reflexivity]).
  - injection Hscan as <-. exact Hin.
Qed.

Lemma py_range_app (lo mid hi : Z) :
  lo <= mid <= hi -> py_range lo hi = py_range lo mid ++ py_range mid hi.
Proof.
  intros [H1 H2].
  replace hi with (mid + Z.of_nat (Z.to_nat (hi - mid))) by lia.
  induction (Z.to_nat (hi - mid)) as [|n IH].
  - rewrite Z.add_0_r, (py_range_nil mid mid) by lia.
    now rewrite app_nil_r.
  - replace (mid + Z.of_nat (S n)) with (mid + Z.of_nat n + 1) by lia.
    rewrite (py_range_snoc lo), (py_range_snoc mid) by lia.
    now rewrite IH, app_assoc.
Qed.

Lemma firstn_py_range (k n : Z) :
  0 <= k <= n ->
  firstn (Z.to_nat k) (py_range 1 (n + 1)) = py_range 1 (k + 1).
Proof.
  intros Hk. rewrite (py_range_app 1 (k + 1) (n + 1)) by lia.
  rewrite firstn_app, py_range_length.
  replace (Z.to_nat (k + 1 - 1)) with (Z.to_nat k) by lia.
  rewrite Nat.sub_diag, firstn_0, app_nil_r.
  apply firstn_all2. rewrite py_range_length. lia.
Qed.

(** The months of the records read by position. *)
Lemma month_at (rs : list row) (n : Z) (i : nat) (r : row) :
  map Month rs = py_range 1 (n + 1) ->
  nth_error rs i = Some r -> Month r = Z.of_nat i + 1.
Proof.
  intros Hmo Hr.
  assert (E : nth_error (map Month rs) i = Some (Month r))
    by (rewrite nth_error_map, Hr; reflexivity).
  rewrite Hmo in E.
  assert (Hlt : (i < List.length (py_range 1 (n + 1)))%nat)
    by (apply nth_error_Some; congruence).
  rewrite (nth_error_nth' _ 0 Hlt) in E. injection E as E.
  rewrite py_range_length in Hlt.
  rewrite py_range_nth in E by exact Hlt. lia.
Qed.

Lemma month_trace_app (p : params) (sch : list flt) (rs l : list row)
    (k : Z) :
  1 <= k <= len rs ->
  month_trace p sch rs k -> month_trace p sch (rs ++ l) k.
Proof.
  intros Hk (r & s0 & adb & Hr & H). exists r, s0, adb.
  split; [rewrite nth_error_app1; [exact Hr | unfold len in Hk; lia]|].
  rewrite firstn_app.
  replace (Z.to_nat k - List.length rs)%nat with 0%nat
    by (unfold len in Hk; lia).
  rewrite firstn_0, app_nil_r. exact H.
Qed.

(** The whole run, month by month: the records carry the months
    [1..wam] in order, and each one is the record of its month. *)
Lemma engine_trace (p : params) :
  (0 < wac p)%Q -> 0 < wam p ->
  exists s,
    engine p = Ok s /\ wf p (wam p) s /\
    calculate_mortgage_cash_flows_with_defaults p
      = Ok (display_rows (results s)) /\
    map Month (results s) = py_range 1 (wam p + 1) /\
    forall k, 1 <= k <= wam p ->
      month_trace p (curve (wac p / 1200) (wam p)) (results s) k.
Proof.
  intros Hc Hw.
  set (sch := curve (wac p / 1200) (wam p)).
  destruct (calculate_inv p
    (fun m s =>
       engine_upto p sch m = Ok s /\
       default_queue s = entries_of p (results s) /\
       map Month (results s) = py_range 1 (m + 1) /\
       forall k, 1 <= k <= m -> month_trace p sch (results s) k)
    Hc Hw) as (s & Es & Hwf & (_ & _ & Hmo & Htr) & E).
  - split; [reflexivity|]. split; [reflexivity|]. split; [reflexivity|].
    intros k Hk. lia.
  - intros m s s' Hm Hwf (Eup & Hq & Hmo & Htr) Hstep. fold sch in Hstep.
    destruct (month_step_facts _ _ _ _ _ Hstep) as (r & adb & af & MF).
    pose proof (mf_month _ _ _ _ _ _ _ _ MF) as Emonth.
    pose proof (wf_rows _ _ _ Hwf) as Hlen.
    assert (Eup' : engine_upto p sch m = Ok s').
    { replace m with (m - 1 + 1) at 1 by lia.
      rewrite engine_upto_succ by lia. rewrite Eup. cbn [bind].
      now replace (m - 1 + 1) with m by lia. }
    assert (Hq' : default_queue s' = entries_of p (results s')).
    { rewrite (mf_results _ _ _ _ _ _ _ _ MF), (mf_queue _ _ _ _ _ _ _ _ MF).
      rewrite entries_of_app, Hq.
      assert (E1 : entries_of p [r]
                   = if fgt (New_Defaults r) (Fin 0)
                     then [{| amount := New_Defaults r;
                              recovery_month :=
                                m + months_to_liquidation p |}]
                     else []).
      { unfold entries_of. cbn [flat_map].
        rewrite app_nil_r, Emonth. reflexivity. }
      rewrite E1.
      destruct (fgt (New_Defaults r) (Fin 0));
        [reflexivity | now rewrite app_nil_r]. }
    assert (Hmo' : map Month (results s') = py_range 1 (m + 1)).
    { rewrite (mf_results _ _ _ _ _ _ _ _ MF), map_app, Hmo. cbn [map].
      rewrite Emonth. replace (m - 1 + 1) with m by lia.
      symmetry. apply py_range_snoc. lia. }
    split; [exact Eup'|]. split; [exact Hq'|]. split; [exact Hmo'|].
    intros k Hk. rewrite (mf_results _ _ _ _ _ _ _ _ MF).
    destruct (Z.eq_dec k m) as [->|Hne].
    + exists r, s, adb.
      split; [apply nth_error_last, Hlen|]. split; [exact Emonth|].
      split; [exact Eup|].
      split; [apply (mf_new_def _ _ _ _ _ _ _ _ MF)|].
      split; [|apply (mf_inrec _ _ _ _ _ _ _ _ MF)].
      rewrite firstn_all2
        by (rewrite length_app; cbn [List.length]; unfold len in Hlen; lia).
      rewrite <- (mf_results _ _ _ _ _ _ _ _ MF), <- Hq'.
      apply (mf_scan _ _ _ _ _ _ _ _ MF).
    + apply month_trace_app; [lia|]. apply Htr. lia.
  - exists s. auto.
Qed.

(** The records up to month [k], and where the scan of month [k] finds
    its entry. *)
Lemma firstn_months (rs : list row) (n k : Z) :
  map Month rs = py_range 1 (n + 1) -> 0 <= k <= n ->
  map Month (firstn (Z.to_nat k) rs) = py_range 1 (k + 1).
Proof.
  intros Hmo Hk. rewrite <- firstn_map, Hmo. now apply firstn_py_range.
Qed.

Lemma trace_no_source (p : params) (sch : list flt) (rs : list row)
    (n k : Z) :
  map Month rs = py_range 1 (n + 1) -> 1 <= k <= n ->
  months_to_liquidation p < 0 \/ k <= months_to_liquidation p ->
  scan_queue p sch k (entries_of p (firstn (Z.to_nat k) rs)) = Ok (Fin 0).
Proof.
  intros Hmo Hk Hlag. apply scan_entries_none. intros r0 Hr0.
  pose proof (months_in_range _ _ _ (firstn_months rs n k Hmo ltac:(lia)) Hr0).
  lia.
Qed.

Lemma trace_source (p : params) (sch : list flt) (rs : list row)
    (n k : Z) (r0 : row) :
  map Month rs = py_range 1 (n + 1) -> 1 <= k <= n ->
  0 <= months_to_liquidation p ->
  nth_error rs (Z.to_nat (k - months_to_liquidation p - 1)) = Some r0 ->
  1 <= k - months_to_liquidation p ->
  scan_queue p sch k (entries_of p (firstn (Z.to_nat k) rs))
    = if fgt (New_Defaults r0) (Fin 0)
      then adb_add p sch k (Fin 0)
             {| amount := New_Defaults r0; recovery_month := k |}
      else Ok (Fin 0).
Proof.
  intros Hmo Hk Hlag Hr0 Ho.
  apply scan_entries_one.
  - rewrite (firstn_months rs n k Hmo) by lia. apply py_range_NoDup.
  - apply (nth_error_In _ (Z.to_nat (k - months_to_liquidation p - 1))).
    rewrite nth_error_firstn.
    replace (Z.to_nat (k - months_to_liquidation p - 1) <? Z.to_nat k)%nat
      with true by (symmetry; apply Nat.ltb_lt; lia).
    exact Hr0.
  - rewrite (month_at rs n _ r0 Hmo Hr0). lia.
Qed.

(** X9. With a liquidation lag of 0 or more months (and a lag or no P&I
    advance), what a record of the loop reports as recovered comes from
    the new defaults booked [months_to_liquidation] months earlier, and
    from nothing else: the first [months_to_liquidation] records recover
    nothing; a later record recovers nothing when the earlier record had
    no positive new defaults [nd], and otherwise reports the amortized
    default balance [0 + nd], or [0 + nd * (sch_am[month - 1] /
    sch_am[month - months_to_liquidation])] when P&I is advanced. *)
Theorem X9_recovery_from_earlier_defaults (p : params) :
  (0 < wac p)%Q -> 0 < wam p -> 0 <= months_to_liquidation p ->
  lag_or_no_advance p ->
  exists sch s,
    build_sch_am (wac p) (wam p) = Ok sch /\
    engine p = Ok s /\
    len (results s) = wam p /\
    forall r, In r (results s) ->
      (Month r <= months_to_liquidation p -> In_Recovery_Month r = None) /\
      (forall r0, In r0 (results s) ->
         Month r0 + months_to_liquidation p = Month r ->
         recovery_of p sch r0 r).
Proof.
  intros Hc Hw Hmtl Hlag.
  set (sch := curve (wac p / 1200) (wam p)).
  destruct (engine_trace p Hc Hw) as (s & Es & Hwf & _ & Hmo & Htr).
  fold sch in Htr.
  exists sch, s.
  split; [apply build_sch_am_ok; assumption|].
  split; [exact Es|]. split; [apply (wf_rows _ _ _ Hwf)|].
  intros r Hr.
  pose proof (months_in_range _ _ _ Hmo Hr) as Hk.
  destruct (Htr (Month r) Hk) as (r' & s1 & adb & Hr' & _ & _ & _ & Escan & Ein).
  apply In_nth_error in Hr. destruct Hr as (i & Hi).
  pose proof (month_at _ _ _ _ Hmo Hi) as Emi.
  replace (Z.to_nat (Month r - 1)) with i in Hr' by lia.
  rewrite Hi in Hr'. injection Hr' as <-.
  split.
  - intros Hle.
    rewrite (trace_no_source p sch _ (wam p) (Month r) Hmo Hk) in Escan
      by (right; exact Hle).
    injection Escan as <-. exact Ein.
  - intros r0 Hr0 Hmonth.
    pose proof (months_in_range _ _ _ Hmo Hr0) as Hk0.
    destruct (Htr (Month r0) Hk0)
      as (r0' & s0 & adb0 & Hr0' & _ & Es0 & End0 & _ & _).
    apply In_nth_error in Hr0. destruct Hr0 as (j & Hj).
    pose proof (month_at _ _ _ _ Hmo Hj) as Emj.
    replace (Z.to_nat (Month r0 - 1)) with j in Hr0' by lia.
    rewrite Hj in Hr0'. injection Hr0' as <-.
    rewrite (trace_source p sch _ (wam p) (Month r) r0 Hmo Hk Hmtl) in Escan;
      [| replace (Z.to_nat (Month r - months_to_liquidation p - 1)) with j
           by lia; exact Hj
       | lia].
    destruct (engine_upto_inv p Hc Hw (fun _ _ => True) (Month r0 - 1)
                ltac:(lia) I) as (s0' & Es0' & Hwf0 & _); [auto|].
    fold sch in Es0'. rewrite Es0 in Es0'. injection Es0' as <-.
    destruct (wf_perf _ _ _ Hwf0) as (P0 & HP0).
    apply (recovery_of_scan p (Month r) r0 r adb); auto; try lia.
    rewrite End0, HP0. eexists; reflexivity.
Qed.

Lemma X9_recovery_from_earlier_defaults_witness :
  (0 < wac pool_two)%Q /\ 0 < wam pool_two /\
  0 <= months_to_liquidation pool_two /\ lag_or_no_advance pool_two /\
  exists sch s,
    build_sch_am (wac pool_two) (wam pool_two) = Ok sch /\
    engine pool_two = Ok s /\
    len (results s) = wam pool_two /\
    forall r, In r (results s) ->
      (Month r <= months_to_liquidation pool_two ->
         In_Recovery_Month r = None) /\
      (forall r0, In r0 (results s) ->
         Month r0 + months_to_liquidation pool_two = Month r ->
         recovery_of pool_two sch r0 r).
Proof.
  split; [reflexivity|]. split; [reflexivity|].
  split; [discriminate|]. split; [left; discriminate|].
  apply (X9_recovery_from_earlier_defaults pool_two);
    [reflexivity | reflexivity | discriminate | left; discriminate].
Defined.

(** ** A default entry in its recovery month *)

(** In its recovery month the scan adds the entry's term to [adb]. *)
Lemma adb_add_matures (p : params) (o : Z) (d : default) (x : Q) :
  (0 < wac p)%Q -> 0 < wam p -> 0 <= months_to_liquidation p ->
  1 <= o -> o + months_to_liquidation p <= wam p ->
  recovery_month d = o + months_to_liquidation p ->
  amount d = Fin x -> (0 < x)%Q ->
  exists t,
    term_of p (curve (wac p / 1200) (wam p)) d t /\
    forall adb,
      adb_add p (curve (wac p / 1200) (wam p)) (recovery_month d) adb d
        = Ok (fadd adb t).
Proof.
  intros Hc Hw Hlag Ho Hle Erec Ex Hx.
  pose proof (c_pos p Hc) as Hc'.
  destruct (pi_advanced p) eqn:Epi.
  - set (a := sch_q (wac p / 1200) (wam p) (recovery_month d - 1)).
    set (b := sch_q (wac p / 1200) (wam p)
                (recovery_month d - months_to_liquidation p)).
    assert (Ha : (0 < a)%Q) by (apply sch_q_pos; [assumption|assumption|lia]).
    assert (Hb : (0 <= b)%Q)
      by (apply sch_q_nonneg; [assumption|assumption|lia]).
    assert (Ga : np_get (curve (wac p / 1200) (wam p)) (recovery_month d - 1)
                 = Ok (Fin a)) by (apply curve_get; lia).
    assert (Gb : np_get (curve (wac p / 1200) (wam p))
                   (recovery_month d - months_to_liquidation p)
                 = Ok (Fin b)) by (apply curve_get; lia).
    exists (fmul (Fin x) (fdiv (Fin a) (Fin b))). split.
    + exists x. split; [exact Ex|]. split; [exact Hx|]. rewrite Epi.
      exists a, b. auto.
    + intros adb. unfold adb_add. rewrite Z.eqb_refl, Epi.
      rewrite curve_len by lia.
      replace (recovery_month d >? 0) with true
        by (symmetry; apply Z.gtb_lt; lia).
      replace (recovery_month d - 1 <? wam p + 1) with true
        by (symmetry; apply Z.ltb_lt; lia).
      cbn [andb]. rewrite Ga, Gb. cbn [bind]. now rewrite Ex.
  - exists (Fin x). split.
    + exists x. split; [exact Ex|]. split; [exact Hx|]. now rewrite Epi.
    + intros adb. unfold adb_add. rewrite Z.eqb_refl, Epi. cbn [andb].
      now rewrite Ex.
Qed.

(** C8, as the code has it. In a run with a positive coupon and term, the
    entries of the default queue are the entries booked in the months of
    the run, and the entry booked in month [o] has recovery month
    [o + months_to_liquidation].  In every other month the scan passes it
    over: it adds nothing, and the month's result is what it would be
    without the entry.  With a liquidation lag of 0 or more months the
    recovery month is a month of the run, and in that month the scan adds
    the entry's term [t] to the amortized default balance: the amount, a
    positive number, times [sch_am[month - 1] / sch_am[month -
    months_to_liquidation]] with P&I advance, and the amount as it is
    without; the record of that month reports [0 + t] as recovered, when
    it is greater than 0 (line 160).  With a negative lag the recovery
    month is before the month of origination and the entry matures in no
    month. *)
Theorem C8_default_matures_once (p : params) :
  (0 < wac p)%Q -> 0 < wam p ->
  exists sch s,
    build_sch_am (wac p) (wam p) = Ok sch /\
    engine p = Ok s /\
    (forall d, In d (default_queue s) <->
               exists o, 1 <= o <= wam p /\ booked_at p sch o d) /\
    (forall o d, 1 <= o <= wam p -> booked_at p sch o d ->
       recovery_month d = o + months_to_liquidation p /\
       (forall m, 1 <= m <= wam p ->
          (matures_in p sch m d <->
             m = recovery_month d /\ 0 <= months_to_liquidation p) /\
          (m <> recovery_month d ->
             (forall adb, adb_add p sch m adb d = Ok adb) /\
             (forall q1 q2, scan_queue p sch m (q1 ++ d :: q2)
                            = scan_queue p sch m (q1 ++ q2)))) /\
       (0 <= months_to_liquidation p ->
          1 <= recovery_month d <= wam p /\
          exists t r,
            term_of p sch d t /\
            (forall adb,
               adb_add p sch (recovery_month d) adb d = Ok (fadd adb t)) /\
            nth_error (results s) (Z.to_nat (recovery_month d - 1))
              = Some r /\
            Month r = recovery_month d /\
            In_Recovery_Month r
              = (if fgt (fadd (Fin 0) t) (Fin 0)
                 then Some (fadd (Fin 0) t) else None))).
Proof.
  intros Hc Hw.
  set (sch := curve (wac p / 1200) (wam p)).
  destruct (engine_trace p Hc Hw) as (s & Es & Hwf & _ & Hmo & Htr).
  fold sch in Htr.
  assert (Eup : engine_upto p sch (wam p) = Ok s)
    by (unfold sch; rewrite <- engine_is_upto by assumption; exact Es).
  exists sch, s.
  split; [apply build_sch_am_ok; assumption|].
  split; [exact Es|].
  split.
  { intros d. rewrite <- (Z2Nat.id (wam p)) in Eup by lia.
    rewrite (queue_is_booked p sch _ s d Eup).
    rewrite Z2Nat.id by lia. reflexivity. }
  intros o d Ho Hb.
  pose proof Hb as (s0 & E0 & Eg & Ed).
  assert (Erec : recovery_month d = o + months_to_liquidation p)
    by (rewrite Ed; reflexivity).
  split; [exact Erec|]. split.
  - intros m Hm. split; [split|].
    + intros [(sm & Em & Hin) Hrec]. split; [now symmetry|].
      rewrite <- (Z2Nat.id m) in Em by lia.
      apply (queue_is_booked p sch _ sm d Em) in Hin.
      destruct Hin as (o' & Ho' & (s0' & _ & _ & Ed')).
      assert (recovery_month d = o' + months_to_liquidation p)
        by (rewrite Ed'; reflexivity).
      lia.
    + intros [-> Hlag]. split; [|reflexivity].
      destruct (engine_upto_inv p Hc Hw (fun _ _ => True) (recovery_month d)
                  ltac:(lia) I) as (sm & Em & _ & _); [auto|].
      fold sch in Em. exists sm. split; [exact Em|].
      rewrite <- (Z2Nat.id (recovery_month d)) in Em by lia.
      apply (queue_is_booked p sch _ sm d Em).
      exists o. split; [rewrite Z2Nat.id by lia; lia | exact Hb].
    + intros Hne. split.
      * intros adb. unfold adb_add.
        replace (recovery_month d =? m) with false; [reflexivity|].
        symmetry. apply Z.eqb_neq. congruence.
      * intros q1 q2. apply scan_queue_skips. congruence.
  - intros Hlag.
    pose proof (new_def_gate _ _ _ Eg) as Hgate.
    assert (Hrm : 1 <= recovery_month d <= wam p) by lia.
    split; [exact Hrm|].
    destruct (engine_upto_inv p Hc Hw (fun _ _ => True) (o - 1)
                ltac:(lia) I) as (s0' & E0' & Hwf0 & _); [auto|].
    fold sch in E0'. rewrite E0 in E0'. injection E0' as <-.
    destruct (wf_perf _ _ _ Hwf0) as (P0 & HP0).
    assert (Ex : amount d = Fin (P0 * month_mdr p o))
      by (rewrite Ed; cbn [amount]; rewrite HP0; reflexivity).
    assert (Hx : (0 < P0 * month_mdr p o)%Q).
    { apply fgt_fin_true. rewrite HP0 in Eg. exact Eg. }
    destruct (adb_add_matures p o d _ Hc Hw Hlag ltac:(lia) ltac:(lia)
                Erec Ex Hx) as (t & Ht & Hadd).
    fold sch in Ht, Hadd.
    destruct (Htr (recovery_month d) Hrm)
      as (r & s1 & adb & Hr & Emr & _ & _ & Escan & Ein).
    destruct (Htr o Ho) as (r0 & s0' & adb0 & Hr0 & _ & E0' & End0 & _ & _).
    rewrite E0 in E0'. injection E0' as <-.
    rewrite (trace_source p sch _ (wam p) (recovery_month d) r0 Hmo Hrm Hlag)
      in Escan;
      [| replace (recovery_month d - months_to_liquidation p - 1)
           with (o - 1) by lia; exact Hr0
       | lia].
    rewrite End0, Eg in Escan.
    replace {| amount := fmul (perf_bal_prev s0) (Fin (month_mdr p o));
               recovery_month := recovery_month d |} with d in Escan
      by (rewrite Ed at 1; rewrite Erec; reflexivity).
    rewrite Hadd in Escan.
    assert (Eadb : adb = fadd (Fin 0) t) by congruence.
    rewrite Eadb in Ein.
    exists t, r. auto 10.
Qed.

Lemma C8_default_matures_once_witness :
  (0 < wac pool3)%Q /\ 0 < wam pool3 /\
  0 <= months_to_liquidation pool3 /\
  exists sch s,
    build_sch_am (wac pool3) (wam pool3) = Ok sch /\
    engine pool3 = Ok s /\
    (forall d, In d (default_queue s) <->
               exists o, 1 <= o <= wam pool3 /\ booked_at pool3 sch o d) /\
    (forall o d, 1 <= o <= wam pool3 -> booked_at pool3 sch o d ->
       recovery_month d = o + months_to_liquidation pool3 /\
       1 <= recovery_month d <= wam pool3 /\
       (forall m, 1 <= m <= wam pool3 ->
          (matures_in pool3 sch m d <-> m = recovery_month d) /\
          (m <> recovery_month d ->
             forall adb, adb_add pool3 sch m adb d = Ok adb)) /\
       exists t r,
         term_of pool3 sch d t /\
         (forall adb,
            adb_add pool3 sch (recovery_month d) adb d = Ok (fadd adb t)) /\
         nth_error (results s) (Z.to_nat (recovery_month d - 1)) = Some r /\
         Month r = recovery_month d /\
         In_Recovery_Month r
           = (if fgt (fadd (Fin 0) t) (Fin 0)
              then Some (fadd (Fin 0) t) else None)).
Proof.
  split; [reflexivity|]. split; [reflexivity|]. split; [discriminate|].
  destruct (C8_default_matures_once pool3) as (sch & s & E1 & E2 & HQ & H);
    try reflexivity.
  exists sch, s. split; [exact E1|]. split; [exact E2|]. split; [exact HQ|].
  intros o d Ho Hb. destruct (H o d Ho Hb) as (Hr & Hm & Hl).
  assert (Hlag : 0 <= months_to_liquidation pool3) by discriminate.
  destruct (Hl Hlag) as (Hin & Ht).
  split; [exact Hr|]. split; [exact Hin|]. split; [|exact Ht].
  intros m Hmm. destruct (Hm m Hmm) as [[Ha Hb'] Hc]. split.
  - split; [intros Hx; apply (Ha Hx) | intros Hx; apply Hb'; now split].
  - intros Hne. apply (Hc Hne).
Defined.

(** C8 as stated fails: with a liquidation lag of -1 month, which the
    function takes as it is, the entries booked in months 1 and 2 carry
    the recovery months 0 and 1, each the month before its own
    origination.  Both end up in the queue; no month adds either of them
    to its amortized default balance, and no record reports a recovery. *)
Lemma C8_counterexample :
  exists sch s d1 d2,
    build_sch_am (wac pool_negative_lag) (wam pool_negative_lag) = Ok sch /\
    engine pool_negative_lag = Ok s /\
    default_queue s = [d1; d2] /\
    booked_at pool_negative_lag sch 1 d1 /\
    booked_at pool_negative_lag sch 2 d2 /\
    recovery_month d1 = 0 /\ recovery_month d2 = 1 /\
    (forall m, 1 <= m <= wam pool_negative_lag ->
       ~ matures_in pool_negative_lag sch m d1 /\
       ~ matures_in pool_negative_lag sch m d2) /\
    (forall r, In r (results s) ->
       In_Recovery_Month r = None /\
       Principal_Recovery r = Fin 0 /\ Principal_Loss r = Fin 0).
Proof.
  eexists _, _, _, _.
  split; [vm_compute; reflexivity|].
  split; [vm_compute; reflexivity|].
  split; [reflexivity|].
  split; [eexists; split; [reflexivity|]; split; vm_compute; reflexivity|].
  split; [eexists; split; [vm_compute; reflexivity|];
          split; vm_compute; reflexivity|].
  split; [reflexivity|]. split; [reflexivity|].
  split.
  - intros m Hm. cbn in Hm. split; intros [(sm & Em & Hin) Hrec].
    + cbn in Hrec. lia.
    + cbn in Hrec. subst m. vm_compute in Em. injection Em as <-.
      cbn in Hin. destruct Hin as [H|[]]. discriminate H.
  - intros r Hr. cbn in Hr.
    destruct Hr as [<-|[<-|[]]]; repeat split.
Qed.

(** ** A monthly coupon of -100% *)

(** X10. With an annual coupon of -1200%, [1 + c_monthly] is 0, and the
    first power of line 60 raises 0 to a negative exponent: the call ends
    in ZeroDivisionError before any record is produced, whatever the
    (positive) term is. *)
Theorem X10_coupon_of_minus_1200 (p : params) :
  (wac p == - (1200))%Q -> 0 < wam p ->
  py_pow (1 + wac p / 1200) (- (wam p - 0)) = Raise ZeroDivisionError /\
  calculate_mortgage_cash_flows_with_defaults p = Raise ZeroDivisionError.
Proof.
  intros Hc Hw.
  assert (Epow : py_pow (1 + wac p / 1200) (- (wam p - 0))
                 = Raise ZeroDivisionError).
  { unfold py_pow.
    replace (Qeq_bool (1 + wac p / 1200) 0) with true
      by (symmetry; apply Qeq_bool_iff; rewrite Hc; reflexivity).
    replace (- (wam p - 0) <? 0) with true
      by (symmetry; apply Z.ltb_lt; lia).
    reflexivity. }
  split; [exact Epow|].
  unfold calculate_mortgage_cash_flows_with_defaults, engine, build_sch_am.
  unfold np_zeros.
  replace (wam p + 1 <? 0) with false by (symmetry; apply Z.ltb_ge; lia).
  cbn [bind]. rewrite py_range_cons by lia. cbn [foldM].
  assert (E : sch_value (wac p / 1200) (wam p) 0 = Raise ZeroDivisionError).
  { unfold sch_value.
    replace (wam p - 0 >? 0) with true by (symmetry; apply Z.gtb_lt; lia).
    rewrite Epow. reflexivity. }
  rewrite E. reflexivity.
Qed.

Lemma X10_coupon_of_minus_1200_witness :
  (wac pool_minus_coupon == - (1200))%Q /\ 0 < wam pool_minus_coupon /\
  py_pow (1 + wac pool_minus_coupon / 1200) (- (wam pool_minus_coupon - 0))
    = Raise ZeroDivisionError /\
  calculate_mortgage_cash_flows_with_defaults pool_minus_coupon
    = Raise ZeroDivisionError.
Proof.
  split; [reflexivity|]. split; [reflexivity|].
  apply (X10_coupon_of_minus_1200 pool_minus_coupon); reflexivity.
Defined.

(** ** An initial balance of zero *)

Lemma Qzero_true (q : Q) : (q == 0)%Q -> Qzero q = true.
Proof. intros H. unfold Qzero. now apply Qeq_bool_iff. Qed.

(** X15. An initial balance of 0 is not an error: from the first month on
    the performing balance is a numpy scalar, so [perf_bal /
    initial_balance] is [0.0 / 0] on numpy floats; the call returns its
    [wam] records, every performing balance is 0 and every pool factor is
    [nan]. *)
Theorem X15_zero_balance_gives_nan_factors (p : params) :
  (0 < wac p)%Q -> 0 < wam p -> (initial_balance p == 0)%Q ->
  exists rs,
    calculate_mortgage_cash_flows_with_defaults p = Ok rs /\
    len rs = wam p /\
    forall r, In r rs ->
      Performing_Balance r =f= Fin 0 /\ Amort_Factor r = NaN.
Proof.
  intros Hc Hw HB.
  destruct (calculate_inv p
    (fun _ s =>
       (exists P, perf_bal_prev s = Fin P /\ (P == 0)%Q) /\
       forall r, In r (results s) ->
         Performing_Balance r =f= Fin 0 /\ Amort_Factor r = NaN)
    Hc Hw) as (s & _ & Hwf & (_ & Hrows) & E).
  - split; [exists (initial_balance p); now split | intros r []].
  - intros m s s' Hm Hwf ((P & HP & HP0) & Hrows) Hstep.
    destruct (month_step_facts _ _ _ _ _ Hstep) as (r & adb & af & MF).
    pose proof (month_facts_af p s s' m r adb af Hc Hw Hm MF) as Eaf.
    pose proof (mf_new_def _ _ _ _ _ _ _ _ MF) as End.
    pose proof (mf_act _ _ _ _ _ _ _ _ MF) as Eact.
    pose proof (mf_vol _ _ _ _ _ _ _ _ MF) as Evol.
    pose proof (mf_perf _ _ _ _ _ _ _ _ MF) as Epb.
    rewrite HP in End. rewrite HP, End, Eaf in Eact. rewrite HP, Eaf in Evol.
    rewrite HP, End, Evol, Eact in Epb.
    cbn [fmul fsub] in End, Eact, Evol, Epb.
    pose proof (month_facts_pool _ _ _ _ _ _ _ _ MF) as Epf.
    rewrite Epb in Epf. cbn [fdiv] in Epf.
    match type of Epb with _ = Fin ?x =>
      assert (HP' : (x == 0)%Q) by (rewrite HP0; ring) end.
    rewrite (Qzero_true _ HB), (Qzero_true _ HP') in Epf.
    split.
    + rewrite (mf_perf' _ _ _ _ _ _ _ _ MF), Epb. eexists; split;
        [reflexivity|exact HP'].
    + intros r' Hr'. rewrite (mf_results _ _ _ _ _ _ _ _ MF) in Hr'.
      apply in_app_or in Hr'. destruct Hr' as [Hr'|[<-|[]]]; [auto|].
      split; [rewrite Epb; exact HP' | exact Epf].
  - exists (display_rows (results s)). split; [exact E|].
    split; [rewrite len_display; apply (wf_rows _ _ _ Hwf)|].
    intros r Hr. apply in_display in Hr. destruct Hr as (r0 & Hr0 & ->).
    apply (Hrows r0 Hr0).
Qed.

Lemma X15_zero_balance_gives_nan_factors_witness :
  (0 < wac pool_empty)%Q /\ 0 < wam pool_empty /\
  (initial_balance pool_empty == 0)%Q /\
  exists rs,
    calculate_mortgage_cash_flows_with_defaults pool_empty = Ok rs /\
    len rs = wam pool_empty /\
    forall r, In r rs ->
      Performing_Balance r =f= Fin 0 /\ Amort_Factor r = NaN.
Proof.
  split; [reflexivity|]. split; [reflexivity|]. split; [reflexivity|].
  apply (X15_zero_balance_gives_nan_factors pool_empty); reflexivity.
Defined.
